(** * GrammarMiner: a shallow embedding of the grammar miner of the
    fuzzingbook notebook [docs/beta/notebooks/GrammarMiner.ipynb].

    The notebook traces a string-processing function with [sys.settrace],
    records the local string variables whose values occur in the input
    ([traceit], [trace_function]), rewrites a one-rule grammar by
    substituting those values with nonterminals ([get_grammar]) and merges
    the grammars of several inputs ([merge_grammars], [get_merged_grammar]).

    Python strings are lists of ASCII characters; Python dicts are
    association lists with the dict's insertion order ([dget], [dset],
    [ddel]); the process-wide trace hook and the globals [the_values] and
    [the_input] are an explicit state [gstate]. *)

From Stdlib Require Import Ascii String.
From Stdlib Require Import List Bool Arith Lia.
Import ListNotations.
Open Scope list_scope.

(* ------------------------------------------------------------------ *)
(** ** Strings *)

Notation str := (list ascii).

(** String literals of the notebook, written as Rocq strings. *)
Definition lit (s : string) : str := list_ascii_of_string s.

Definition str_eqb (a b : str) : bool :=
  if list_eq_dec ascii_dec a b then true else false.

Fixpoint is_prefix (p s : str) : bool :=
  match p, s with
  | [], _ => true
  | _ :: _, [] => false
  | c :: p', d :: s' => Ascii.eqb c d && is_prefix p' s'
  end.

(** Python's [value in s] on two strings. *)
Fixpoint is_sub (p s : str) : bool :=
  is_prefix p s ||
  match s with
  | [] => false
  | _ :: s' => is_sub p s'
  end.

Fixpoint repl_aux (pat rep : str) (fuel : nat) (s : str) : str :=
  match fuel with
  | O => s
  | S n =>
      match s with
      | [] => []
      | c :: s' =>
          if is_prefix pat s then rep ++ repl_aux pat rep n (skipn (length pat) s)
          else c :: repl_aux pat rep n s'
      end
  end.

(** Python's [s.replace(pat, rep)]: every non-overlapping occurrence of
    [pat], scanning from the left, is replaced by [rep]; an empty [pat]
    inserts [rep] around every character. *)
Definition py_replace (pat rep s : str) : str :=
  match pat with
  | [] => rep ++ concat (map (fun c => c :: rep) s)
  | _ :: _ => repl_aux pat rep (length s) s
  end.

(** Python's [str.lower()] on ASCII. *)
Definition lower_char (c : ascii) : ascii :=
  let n := nat_of_ascii c in
  if (65 <=? n) && (n <=? 90) then ascii_of_nat (n + 32) else c.

Definition lower (s : str) : str := map lower_char s.

(* ------------------------------------------------------------------ *)
(** ** Dicts *)

Definition dict (V : Type) := list (str * V).

(** [d[k]] (None: KeyError). *)
Fixpoint dget {V} (k : str) (d : dict V) : option V :=
  match d with
  | [] => None
  | (k', v) :: d' => if str_eqb k k' then Some v else dget k d'
  end.

(** [d[k] = v]: an existing key keeps its place, a new key goes last. *)
Fixpoint dset {V} (k : str) (v : V) (d : dict V) : dict V :=
  match d with
  | [] => [(k, v)]
  | (k', v') :: d' => if str_eqb k k' then (k, v) :: d' else (k', v') :: dset k v d'
  end.

(** [del d[k]] (None: KeyError). *)
Fixpoint ddel {V} (k : str) (d : dict V) : option (dict V) :=
  match d with
  | [] => None
  | (k', v') :: d' =>
      if str_eqb k k' then Some d' else option_map (cons (k', v')) (ddel k d')
  end.

Definition keys {V} (d : dict V) : list str := map fst d.

(* ------------------------------------------------------------------ *)
(** ** Python values, exceptions, traced calls and the global state *)

Inductive pyval :=
| PStr (s : str)      (* an instance of [str] *)
| POther.             (* any other object *)

Inductive exn :=
| KeyError
| Raised (code : nat) (* an exception raised by the traced callable *)
| NoFixpoint.         (* the model's fuel ran out; never happens (C6) *)

(** One call of the trace hook: the frame it is called with and the
    frame's local bindings [frame.f_locals] at that moment. *)
Record event := mk_event { ev_frame : nat; ev_locals : list (str * pyval) }.

(** What a callable does on one input: the hook calls its execution
    produces (in all the frames it enters) and its outcome. *)
Record call_run := mk_run { cr_events : list event; cr_result : exn + pyval }.

(** A callable taking one string; deterministic by construction. *)
Definition callable := str -> call_run.

(** The globals [the_values] and [the_input], and whether [traceit] is
    installed as the process-wide trace function. *)
Record gstate := mk_gstate {
  the_values : dict str;
  the_input : option str;
  hook_on : bool }.

Definition init_state : gstate := mk_gstate [] None false.

(* ------------------------------------------------------------------ *)
(** ** The tracer *)

(** [traceit(frame, event, arg)]: every local that is a [str] of length
    at least 2 occurring in [the_input] is stored under its name. *)
Definition traceit (the_input : str) (ev : event) (vals : dict str) : dict str :=
  fold_left
    (fun acc '(var, value) =>
       match value with
       | PStr s => if (2 <=? length s) && is_sub s the_input then dset var s acc else acc
       | POther => acc
       end)
    (ev_locals ev) vals.

Definition run_hook (the_input : str) (evs : list event) (vals : dict str) : dict str :=
  fold_left (fun acc ev => traceit the_input ev acc) evs vals.

(** The locals of [trace_function]'s own frame.  That frame is only seen
    by the hook when the hook is already installed at entry (left behind
    by an earlier call whose callable raised): then the line events of
    [sys.settrace(traceit)] and [o = function(the_input)] happen after
    [the_values = {}], and the line event of [sys.settrace(None)] after
    the call returned. *)
Definition tf_locals (input : str) : list (str * pyval) :=
  [(lit "function", POther); (lit "input", PStr input)].

(** The hook calls in [trace_function]'s frame before and after the
    call of the callable (none unless the hook was left installed). *)
Definition tf_pre (leaked : bool) (input : str) : list event :=
  if leaked then [mk_event 0 (tf_locals input); mk_event 0 (tf_locals input)] else [].

Definition tf_post (leaked : bool) (input : str) (o : pyval) : list event :=
  if leaked then [mk_event 0 (tf_locals input ++ [(lit "o", o)])] else [].

Definition trace_function (function : callable) (input : str) (st : gstate)
  : (exn + dict str) * gstate :=
  let leaked := hook_on st in
  let r := function input in
  let vals := run_hook input (tf_pre leaked input ++ cr_events r) [] in
  match cr_result r with
  | inl e =>
      (* no try/finally: sys.settrace(None) is not reached *)
      (inl e, mk_gstate vals (Some input) true)
  | inr o =>
      let vals' := run_hook input (tf_post leaked input o) vals in
      (inr vals', mk_gstate vals' (Some input) false)
  end.

(* ------------------------------------------------------------------ *)
(** ** Grammar extraction *)

Definition grammar := dict (list str).

Definition START_SYMBOL : str := lit "<start>".

Definition nonterminal (var : str) : str := "<"%char :: lower var ++ [">"%char].

(** A pending new rule [(var, alt_key, value)]. *)
Definition triple := (str * str * str)%type.

(** The loop over the alternatives of one rule for one variable. *)
Fixpoint subst_alts (var value : str) (alts : list str) : list str * list triple :=
  match alts with
  | [] => ([], [])
  | repl :: rest =>
      let '(rest', nr) := subst_alts var value rest in
      if is_sub value repl
      then (py_replace value (nonterminal var) repl :: rest',
            (var, nonterminal var, value) :: nr)
      else (repl :: rest', nr)
  end.

(** The loop over the rules of the grammar for one variable. *)
Fixpoint subst_rules (var value : str) (g : grammar) : grammar * list triple :=
  match g with
  | [] => ([], [])
  | (key, alts) :: g' =>
      let '(alts', nr1) := subst_alts var value alts in
      let '(g'', nr2) := subst_rules var value g' in
      ((key, alts') :: g'', nr1 ++ nr2)
  end.

(** The scan of one pass: every variable still in [values], in order. *)
Definition scan_pass (values : dict str) (g : grammar) : grammar * list triple :=
  fold_left
    (fun '(g, nr) '(var, value) =>
       let '(g', nr') := subst_rules var value g in (g', nr ++ nr'))
    values (g, []).

(** The end of a pass: [grammar[alt_key] = [value]; del values[var]]. *)
Fixpoint promote (nr : list triple) (g : grammar) (values : dict str)
  : option (grammar * dict str) :=
  match nr with
  | [] => Some (g, values)
  | (var, alt_key, value) :: nr' =>
      match ddel var values with
      | None => None
      | Some values' => promote nr' (dset alt_key [value] g) values'
      end
  end.

(** The [while True] loop; the result also counts the passes that made
    a substitution. *)
Fixpoint loop (fuel : nat) (values : dict str) (g : grammar)
  : option (exn + grammar * nat) :=
  match fuel with
  | O => None
  | S n =>
      let '(g', nr) := scan_pass values g in
      match nr with
      | [] => Some (inr (g', 0))
      | _ :: _ =>
          match promote nr g' values with
          | None => Some (inl KeyError)
          | Some (g'', values') =>
              match loop n values' g'' with
              | Some (inr (gf, k)) => Some (inr (gf, S k))
              | r => r
              end
          end
      end
  end.

Definition extract (input : str) (values : dict str) : exn + grammar :=
  match loop (S (length values)) values [(START_SYMBOL, [input])] with
  | Some (inr (g, _)) => inr g
  | Some (inl e) => inl e
  | None => inl NoFixpoint
  end.

Definition get_grammar (function : callable) (input : str) (st : gstate)
  : (exn + grammar) * gstate :=
  let '(r, st') := trace_function function input st in
  match r with
  | inl e => (inl e, st')
  | inr values => (extract input values, st')
  end.

(* ------------------------------------------------------------------ *)
(** ** Merging *)

Definition alts_of (key : str) (g : grammar) : list str :=
  match dget key g with Some r => r | None => [] end.

(** One iteration of [for repl in repl2:] inside [for key1 in g1:];
    [repl1] is read once per [key1]. *)
Definition merge_alt (key1 key2 : str) (repl1 : list str) (st : grammar * bool) (repl : str)
  : grammar * bool :=
  let '(m, found) := st in
  if str_eqb key1 key2 then
    if existsb (str_eqb repl) repl1 then (m, true)
    else (dset key1 (repl1 ++ [repl]) m, true)
  else (m, found).

Definition merge_inner (key1 key2 : str) (repl1 repl2 : list str)
  (st : grammar * bool) : grammar * bool :=
  fold_left (merge_alt key1 key2 repl1) repl2 st.

(** One iteration of [for key1 in g1:] ([g1] is [merged]). *)
Definition merge_key1 (key2 : str) (repl2 : list str) (st : grammar * bool) (key1 : str)
  : grammar * bool :=
  let '(m, found) := st in merge_inner key1 key2 (alts_of key1 m) repl2 (m, found).

(** One iteration of [for key2 in g2:]. *)
Definition merge_rule (merged : grammar) (rule : str * list str) : grammar :=
  let '(key2, repl2) := rule in
  let '(merged', key_found) := fold_left (merge_key1 key2 repl2) (keys merged) (merged, false) in
  if key_found then merged' else dset key2 repl2 merged'.

(** [merged_grammar = g1] is an alias: the loops update [g1] itself. *)
Definition merge_grammars (g1 g2 : grammar) : grammar := fold_left merge_rule g2 g1.

Fixpoint merged_loop (function : callable) (inputs : list str)
  (merged : option grammar) (st : gstate) : (exn + option grammar) * gstate :=
  match inputs with
  | [] => (inr merged, st)
  | input :: rest =>
      let '(r, st') := get_grammar function input st in
      match r with
      | inl e => (inl e, st')
      | inr g =>
          merged_loop function rest
            (match merged with None => Some g | Some m => Some (merge_grammars m g) end) st'
      end
  end.

Definition get_merged_grammar (function : callable) (inputs : list str) (st : gstate)
  : (exn + option grammar) * gstate :=
  merged_loop function inputs None st.

(* ------------------------------------------------------------------ *)
(** ** Full expansion of an alternative (the notion the claims use)

    A nonterminal reference is what the fuzzingbook grammars take it to
    be, a match of [<[^<> ]*>]; full expansion replaces every reference
    by the single alternative of its rule, recursively. *)

Inductive tok := TL (c : ascii) | TN (name : str).

Fixpoint tokenize_from (buf : option str) (s : str) : list tok :=
  match s with
  | [] => match buf with None => [] | Some b => TL "<" :: map TL (rev b) end
  | c :: s' =>
      match buf with
      | None => if Ascii.eqb c "<" then tokenize_from (Some []) s'
                else TL c :: tokenize_from None s'
      | Some b =>
          if Ascii.eqb c ">" then TN (rev b) :: tokenize_from None s'
          else if Ascii.eqb c "<" then TL "<" :: map TL (rev b) ++ tokenize_from (Some []) s'
          else if Ascii.eqb c " " then TL "<" :: map TL (rev b) ++ TL c :: tokenize_from None s'
          else tokenize_from (Some (c :: b)) s'
      end
  end.

Definition tokenize (s : str) : list tok := tokenize_from None s.

Definition nt_text (n : str) : str := "<"%char :: n ++ [">"%char].

Fixpoint expand_toks (ex : str -> option str) (g : grammar) (ts : list tok) : option str :=
  match ts with
  | [] => Some []
  | TL c :: ts' => option_map (cons c) (expand_toks ex g ts')
  | TN n :: ts' =>
      match dget (nt_text n) g, expand_toks ex g ts' with
      | Some [b], Some rest => option_map (fun x => x ++ rest) (ex b)
      | _, _ => None
      end
  end.

Fixpoint expand (fuel : nat) (g : grammar) (s : str) : option str :=
  match fuel with
  | O => None
  | S f => expand_toks (expand f g) g (tokenize s)
  end.

(** Token lists whose text tokenizes back to them, and the string they
    stand for under an assignment [rho] of strings to nonterminals. *)
Definition lit_ok (c : ascii) : Prop := c <> "<"%char /\ c <> ">"%char.

Definition name_ok (n : str) : Prop :=
  forall c, In c n -> c <> "<"%char /\ c <> ">"%char /\ c <> " "%char.

Definition tok_ok (t : tok) : Prop :=
  match t with TL c => lit_ok c | TN n => name_ok n end.

Definition tok_text (t : tok) : str :=
  match t with TL c => [c] | TN n => nt_text n end.

Definition render (ts : list tok) : str := concat (map tok_text ts).

Definition flat (rho : str -> str) (ts : list tok) : str :=
  concat (map (fun t => match t with TL c => [c] | TN n => rho (nt_text n) end) ts).

(** What a nonterminal of an extracted grammar stands for: the input for
    the start symbol, the traced value for the nonterminal of a variable. *)
Definition rho (input : str) (rec : dict str) (k : str) : str :=
  if str_eqb k START_SYMBOL then input
  else match find (fun p => str_eqb (nonterminal (fst p)) k) rec with
       | Some (_, v) => v
       | None => []
       end.

(** [value] does not start anywhere inside [a] in the string [a ++ rest]:
    the first occurrence of [value] in [a ++ rest] is not before [length a]. *)
Definition first_at (value a rest : str) : Prop :=
  forall i, i < length a -> is_prefix value (skipn i (a ++ rest)) = false.

(** Whether the tracer keeps a binding (C4, C7). *)
Definition qualifies (input : str) (v : pyval) : bool :=
  match v with
  | PStr s => (2 <=? length s) && is_sub s input
  | POther => false
  end.

(** The most recently observed qualifying value of [var] in a sequence of
    observed bindings (C7). *)
Definition last_qualifying (input var : str) (bs : list (str * pyval)) : option str :=
  match find (fun '(n, v) => str_eqb n var && qualifies input v) (rev bs) with
  | Some (_, PStr s) => Some s
  | _ => None
  end.

(** All the hook calls of a [trace_function] call that returns normally. *)
Definition hook_events (function : callable) (input : str) (st : gstate) : list event :=
  let r := function input in
  tf_pre (hook_on st) input ++ cr_events r ++
  match cr_result r with inl _ => [] | inr o => tf_post (hook_on st) input o end.

(** The variable of a pending rule. *)
Definition triple_var (t : triple) : str := let '(v, _, _) := t in v.

(** Appending an alternative unless it is already there. *)
Definition add_alt (acc : list str) (a : str) : list str :=
  if existsb (str_eqb a) acc then acc else acc ++ [a].

(** The single alternative of the start rule extracted for [input] from a
    fresh state (the empty string if there is none). *)
Definition start_alt (function : callable) (input : str) : str :=
  match fst (get_grammar function input init_state) with
  | inr ((_, [a]) :: _) => a
  | _ => []
  end.

(* ================================================================== *)
(** * Lemmas *)

Lemma str_eqb_refl (a : str) : str_eqb a a = true.
Proof. unfold str_eqb; destruct (list_eq_dec ascii_dec a a); congruence. Qed.

Lemma str_eqb_eq (a b : str) : str_eqb a b = true <-> a = b.
Proof. unfold str_eqb; destruct (list_eq_dec ascii_dec a b); split; congruence. Qed.

Lemma str_eqb_neq (a b : str) : a <> b -> str_eqb a b = false.
Proof. unfold str_eqb; destruct (list_eq_dec ascii_dec a b); congruence. Qed.

Lemma is_prefix_app (p x : str) : is_prefix p (p ++ x) = true.
Proof. induction p; simpl; auto. rewrite Ascii.eqb_refl; auto. Qed.

Lemma is_prefix_length (p s : str) : is_prefix p s = true -> length p <= length s.
Proof.
  revert s; induction p as [|c p IH]; intros [|d s] H; simpl in *; try lia; try discriminate.
  apply andb_prop in H as [_ H]; apply IH in H; lia.
Qed.

Lemma is_prefix_spec (p s : str) : is_prefix p s = true -> exists x, s = p ++ x.
Proof.
  revert s; induction p as [|c p IH]; intros [|d s] H; simpl in *; eauto; try discriminate.
  apply andb_prop in H as [Hc H]; apply Ascii.eqb_eq in Hc; subst.
  destruct (IH s H) as [x ->]; eauto.
Qed.

Lemma is_sub_app_r (p a s : str) : is_sub p s = true -> is_sub p (a ++ s) = true.
Proof. induction a; simpl; auto. intros H; rewrite (IHa H); apply orb_true_r. Qed.

Lemma is_sub_prefix (p s : str) : is_prefix p s = true -> is_sub p s = true.
Proof. destruct s; simpl; intros ->; auto. Qed.

Lemma is_sub_cons_false (p s : str) (c : ascii) :
  is_sub p (c :: s) = false -> is_prefix p (c :: s) = false /\ is_sub p s = false.
Proof. simpl; intros H; apply orb_false_iff in H; exact H. Qed.

Lemma skipn_app_length (p x : str) : skipn (length p) (p ++ x) = x.
Proof. induction p; simpl; auto. Qed.

Section Replace.
Variables pat rep : str.
Hypothesis Hpat : pat <> [].

Lemma repl_aux_fuel (n m : nat) (s : str) :
  length s <= n -> length s <= m -> repl_aux pat rep n s = repl_aux pat rep m s.
Proof.
  revert m s; induction n as [|n IH]; intros m s Hn Hm.
  - destruct s; simpl in Hn; [destruct m; reflexivity | lia].
  - destruct m as [|m]; [destruct s; simpl in Hm; [reflexivity | lia]|].
    destruct s as [|c s]; [reflexivity|]; simpl.
    destruct (is_prefix pat (c :: s)) eqn:Hp.
    + f_equal; apply IH.
      * apply is_prefix_spec in Hp as [x Hx].
        destruct pat as [|d p]; [congruence|].
        simpl in Hx |- *; injection Hx as _ ->; simpl in Hn;
          rewrite length_app in Hn; rewrite skipn_app_length; lia.
      * apply is_prefix_spec in Hp as [x Hx].
        destruct pat as [|d p]; [congruence|].
        simpl in Hx |- *; injection Hx as _ ->; simpl in Hm;
          rewrite length_app in Hm; rewrite skipn_app_length; lia.
    + f_equal; apply IH; simpl in *; lia.
Qed.

Lemma repl_aux_none (n : nat) (s : str) :
  is_sub pat s = false -> repl_aux pat rep n s = s.
Proof.
  revert s; induction n as [|n IH]; intros [|c s] H; simpl; auto.
  apply is_sub_cons_false in H as [H1 H2]; rewrite H1; f_equal; auto.
Qed.

Lemma repl_aux_skip (a t : str) (n : nat) :
  (forall i, i < length a -> is_prefix pat (skipn i (a ++ t)) = false) ->
  length (a ++ t) <= n ->
  repl_aux pat rep n (a ++ t) = a ++ repl_aux pat rep (n - length a) t.
Proof.
  revert n; induction a as [|c a IH]; intros n Hno Hn.
  - simpl; rewrite Nat.sub_0_r; reflexivity.
  - destruct n as [|n]; [simpl in Hn; lia|].
    pose proof (Hno 0 ltac:(simpl; lia)) as H0; simpl in H0.
    simpl. rewrite H0. f_equal.
    apply IH; [|simpl in Hn; lia].
    intros i Hi; apply (Hno (S i)); simpl; lia.
Qed.

Lemma py_replace_none (s : str) : is_sub pat s = false -> py_replace pat rep s = s.
Proof.
  intros H; unfold py_replace; destruct pat eqn:E; [congruence|].
  rewrite <- E in H |- *; apply repl_aux_none; exact H.
Qed.

Lemma py_replace_nonempty (s : str) : py_replace pat rep s = repl_aux pat rep (length s) s.
Proof. unfold py_replace; destruct pat; [congruence|reflexivity]. Qed.

Lemma repl_aux_at (n : nat) (b : str) :
  length (pat ++ b) <= n -> repl_aux pat rep n (pat ++ b) = rep ++ repl_aux pat rep (length b) b.
Proof.
  intros Hn.
  assert (exists d p, pat = d :: p) as (d & p & Ep) by (destruct pat; [congruence | eauto]).
  rewrite length_app in Hn.
  destruct n as [|n]; [rewrite Ep in Hn; simpl in Hn; lia|].
  replace (pat ++ b) with (d :: (p ++ b)) by (rewrite Ep; reflexivity).
  cbn [repl_aux]. change (d :: p ++ b) with ((d :: p) ++ b). rewrite <- Ep.
  rewrite is_prefix_app, skipn_app_length. f_equal.
  apply repl_aux_fuel; rewrite Ep in Hn; simpl in Hn; lia.
Qed.

Lemma py_replace_first (a b : str) :
  (forall i, i < length a -> is_prefix pat (skipn i (a ++ pat ++ b)) = false) ->
  py_replace pat rep (a ++ pat ++ b) = a ++ rep ++ py_replace pat rep b.
Proof.
  intros Hno. rewrite !py_replace_nonempty.
  rewrite repl_aux_skip; auto. f_equal.
  apply repl_aux_at. rewrite !length_app; lia.
Qed.
End Replace.

(** *** Dicts *)

Lemma ddel_some {V} (k : str) (d d' : dict V) :
  ddel k d = Some d' ->
  exists pre v post, d = pre ++ (k, v) :: post /\ d' = pre ++ post /\ ~ In k (keys pre).
Proof.
  revert d'; induction d as [|[k' v'] d IH]; intros d' H; simpl in H; [discriminate|].
  destruct (str_eqb k k') eqn:E.
  - apply str_eqb_eq in E; subst. injection H as <-. exists [], v', d; simpl; auto.
  - destruct (ddel k d) as [d0|] eqn:Ed; simpl in H; [|discriminate].
    injection H as <-. destruct (IH d0 eq_refl) as (pre & v & post & -> & -> & Hn).
    exists ((k', v') :: pre), v, post; simpl; repeat split; auto.
    intros [Heq|Hin]; [subst; rewrite str_eqb_refl in E; discriminate | auto].
Qed.

Lemma ddel_none {V} (k : str) (d : dict V) : ~ In k (keys d) -> ddel k d = None.
Proof.
  induction d as [|[k' v'] d IH]; simpl; intros Hn; auto.
  rewrite str_eqb_neq by (intros ->; auto). rewrite IH; auto.
Qed.

Lemma ddel_length {V} (k : str) (d d' : dict V) :
  ddel k d = Some d' -> S (length d') = length d.
Proof.
  intros H; destruct (ddel_some k d d' H) as (pre & v & post & -> & -> & _).
  rewrite !length_app; simpl; lia.
Qed.

Lemma ddel_nodup {V} (k : str) (d d' : dict V) :
  ddel k d = Some d' -> NoDup (keys d) ->
  NoDup (keys d') /\ forall x, In x (keys d') <-> In x (keys d) /\ x <> k.
Proof.
  intros H Hnd; destruct (ddel_some k d d' H) as (pre & v & post & -> & -> & Hn).
  unfold keys in *; rewrite map_app in *; simpl in Hnd.
  apply NoDup_remove in Hnd as [Hnd Hk]. split; auto.
  intros x; rewrite map_app, !in_app_iff; simpl. split.
  - intros Hx; split; [tauto|]. intros ->. apply Hk; rewrite in_app_iff; tauto.
  - intros [[Hx|[Hx|Hx]] Hne]; auto; congruence.
Qed.

Lemma dget_dset {V} (k k' : str) (v : V) (d : dict V) :
  dget k (dset k' v d) = if str_eqb k k' then Some v else dget k d.
Proof.
  induction d as [|[k0 v0] d IH]; simpl.
  - destruct (str_eqb k k'); reflexivity.
  - destruct (str_eqb k' k0) eqn:E0; simpl.
    + apply str_eqb_eq in E0; subst k0. destruct (str_eqb k k'); reflexivity.
    + rewrite IH. destruct (str_eqb k k') eqn:E; auto.
      apply str_eqb_eq in E; subst k'. rewrite E0; reflexivity.
Qed.

Lemma dget_none {V} (k : str) (d : dict V) : ~ In k (keys d) -> dget k d = None.
Proof.
  induction d as [|[k' v'] d IH]; simpl; intros Hn; auto.
  rewrite str_eqb_neq by (intros ->; auto). apply IH; auto.
Qed.

Lemma dget_in {V} (k : str) (d : dict V) : dget k d = None -> ~ In k (keys d).
Proof.
  induction d as [|[k' v'] d IH]; simpl; intros H; auto.
  destruct (str_eqb k k') eqn:E; [discriminate|].
  intros [->|Hin]; [rewrite str_eqb_refl in E; discriminate | exact (IH H Hin)].
Qed.

Lemma dget_split {V} (k : str) (v : V) (d : dict V) :
  dget k d = Some v -> exists pre post, d = pre ++ (k, v) :: post /\ ~ In k (keys pre).
Proof.
  induction d as [|[k' v'] d IH]; simpl; intros H; [discriminate|].
  destruct (str_eqb k k') eqn:E.
  - apply str_eqb_eq in E; subst. injection H as ->. exists [], d; simpl; auto.
  - destruct (IH H) as (pre & post & -> & Hn). exists ((k', v') :: pre), post; simpl.
    split; auto. intros [->|Hin]; [rewrite str_eqb_refl in E; discriminate | auto].
Qed.

Lemma keys_dset_in {V} (k : str) (v : V) (d : dict V) :
  In k (keys d) -> keys (dset k v d) = keys d.
Proof.
  induction d as [|[k' v'] d IH]; simpl; intros H; [contradiction|].
  destruct (str_eqb k k') eqn:E; simpl.
  - apply str_eqb_eq in E; subst; reflexivity.
  - f_equal. apply IH. destruct H as [->|H]; auto. rewrite str_eqb_refl in E; discriminate.
Qed.

Lemma keys_dset_notin {V} (k : str) (v : V) (d : dict V) :
  ~ In k (keys d) -> keys (dset k v d) = keys d ++ [k].
Proof.
  induction d as [|[k' v'] d IH]; simpl; intros H; auto.
  rewrite str_eqb_neq by (intros ->; auto). simpl. f_equal. apply IH; auto.
Qed.

Lemma dset_notin {V} (k : str) (v : V) (d : dict V) : ~ In k (keys d) -> dset k v d = d ++ [(k, v)].
Proof.
  induction d as [|[k' v'] d IH]; simpl; intros H; auto.
  rewrite str_eqb_neq by (intros ->; auto). f_equal. apply IH; auto.
Qed.

Lemma alts_of_some (k : str) (r : list str) (g : grammar) : dget k g = Some r -> alts_of k g = r.
Proof. unfold alts_of; intros ->; reflexivity. Qed.

(** *** Merging *)

Lemma merge_alt_other (key1 key2 : str) (r1 : list str) (m : grammar) (f : bool) (x : str) :
  key1 <> key2 -> merge_alt key1 key2 r1 (m, f) x = (m, f).
Proof. intros Hne; unfold merge_alt; rewrite str_eqb_neq by exact Hne; reflexivity. Qed.

Lemma merge_alt_same (k : str) (r1 : list str) (m : grammar) (f : bool) (x : str) :
  merge_alt k k r1 (m, f) x =
  if existsb (str_eqb x) r1 then (m, true) else (dset k (r1 ++ [x]) m, true).
Proof. unfold merge_alt; rewrite str_eqb_refl; reflexivity. Qed.

Lemma merge_inner_other (key1 key2 : str) (r1 r2 : list str) (st : grammar * bool) :
  key1 <> key2 -> merge_inner key1 key2 r1 r2 st = st.
Proof.
  intros Hne; unfold merge_inner.
  revert st; induction r2 as [|x r2 IH]; intros [m f]; cbn [fold_left]; auto.
  rewrite merge_alt_other by exact Hne; apply IH.
Qed.

Lemma merge_inner_same (k : str) (r1 r2 : list str) (m m' : grammar) (f f' : bool) :
  In k (keys m) -> merge_inner k k r1 r2 (m, f) = (m', f') ->
  f' = f || negb (match r2 with [] => true | _ => false end) /\
  keys m' = keys m /\
  (forall x, x <> k -> dget x m' = dget x m) /\
  (dget k m' = dget k m \/
   exists y, In y r2 /\ ~ In y r1 /\ dget k m' = Some (r1 ++ [y])).
Proof.
  unfold merge_inner.
  revert m f; induction r2 as [|repl r2 IH]; intros m f Hk Hf; cbn [fold_left] in Hf.
  - injection Hf as -> ->. rewrite orb_false_r; auto.
  - rewrite merge_alt_same in Hf.
    destruct (existsb (str_eqb repl) r1) eqn:Ex.
    + destruct (IH m true Hk Hf) as (H1 & H2 & H3 & H4).
      rewrite orb_true_r. repeat split; auto.
      destruct H4 as [H4|(y & Hy & Hy1 & H4)]; auto. right; exists y; simpl; auto.
    + assert (Hk' : In k (keys (dset k (r1 ++ [repl]) m))) by (rewrite keys_dset_in; auto).
      destruct (IH _ true Hk' Hf) as (H1 & H2 & H3 & H4).
      rewrite orb_true_r. rewrite keys_dset_in in H2 by auto.
      repeat split; auto.
      * intros x Hx; rewrite H3 by auto; rewrite dget_dset, str_eqb_neq; auto.
      * destruct H4 as [H4|(y & Hy & Hy1 & H4)].
        -- right; exists repl; split; [left; auto|]. split.
           ++ intros Hin. assert (existsb (str_eqb repl) r1 = true) as Hc
                by (apply existsb_exists; exists repl; split; auto; apply str_eqb_refl).
              congruence.
           ++ rewrite H4, dget_dset, str_eqb_refl; reflexivity.
        -- right; exists y; split; [right; auto | auto].
Qed.

Lemma merge_keys_noop (key2 : str) (r2 : list str) (L : list str) (st : grammar * bool) :
  ~ In key2 L -> fold_left (merge_key1 key2 r2) L st = st.
Proof.
  revert st; induction L as [|key1 L IH]; intros [m f] Hn; simpl; auto.
  rewrite merge_inner_other by (intros ->; apply Hn; left; auto).
  apply IH; intros Hin; apply Hn; right; auto.
Qed.

Lemma merge_rule_spec (m : grammar) (key2 : str) (r2 : list str) :
  NoDup (keys m) ->
  let m' := merge_rule m (key2, r2) in
  NoDup (keys m') /\
  (forall x, x <> key2 -> dget x m' = dget x m) /\
  (forall x, In x (keys m') <-> In x (keys m) \/ x = key2) /\
  (~ In key2 (keys m) -> dget key2 m' = Some r2) /\
  (In key2 (keys m) -> r2 <> [] ->
     dget key2 m' = dget key2 m \/
     exists y, In y r2 /\ ~ In y (alts_of key2 m) /\ dget key2 m' = Some (alts_of key2 m ++ [y])).
Proof.
  intros Hnd. unfold merge_rule.
  destruct (in_dec (list_eq_dec ascii_dec) key2 (keys m)) as [Hin|Hout].
  - apply in_split in Hin as (pre & post & Hkeys).
    pose proof Hnd as Hnd'. rewrite Hkeys in Hnd'. apply NoDup_remove_2 in Hnd'.
    rewrite in_app_iff in Hnd'.
    assert (Hk : In key2 (keys m)) by (rewrite Hkeys; apply in_app_iff; right; left; auto).
    rewrite Hkeys, fold_left_app, (merge_keys_noop key2 r2 pre) by tauto.
    cbn [fold_left].
    change (merge_key1 key2 r2 (m, false) key2)
      with (merge_inner key2 key2 (alts_of key2 m) r2 (m, false)).
    destruct (merge_inner key2 key2 (alts_of key2 m) r2 (m, false)) as [m1 f1] eqn:Ei.
    destruct (merge_inner_same key2 (alts_of key2 m) r2 m m1 false f1 Hk Ei)
      as (Hf & Hkeys1 & Hoth & Hval). simpl in Hf.
    rewrite merge_keys_noop by tauto. rewrite <- Hkeys.
    destruct f1.
    + rewrite Hkeys1. repeat split; auto.
      * intros [Hx| ->]; auto.
      * intros Hn; contradiction.
    + destruct r2; [|discriminate]. repeat split.
      * rewrite keys_dset_in by (rewrite Hkeys1; auto). rewrite Hkeys1; auto.
      * intros x Hx; rewrite dget_dset, str_eqb_neq by auto; auto.
      * rewrite keys_dset_in by (rewrite Hkeys1; auto); rewrite Hkeys1; auto.
      * rewrite keys_dset_in by (rewrite Hkeys1; auto); rewrite Hkeys1; intros [Hx| ->]; auto.
      * intros Hn; contradiction.
      * intros _ Hne; congruence.
  - rewrite merge_keys_noop by exact Hout.
    repeat split.
    + rewrite keys_dset_notin by exact Hout.
      apply NoDup_app; auto. { repeat constructor; auto. }
      intros x Hx [<-|[]]; contradiction.
    + intros x Hx; rewrite dget_dset, str_eqb_neq by auto; auto.
    + rewrite keys_dset_notin, in_app_iff by exact Hout. intros [H|[H|[]]]; auto.
    + rewrite keys_dset_notin, in_app_iff by exact Hout. intros [H|H]; auto. right; left; auto.
    + intros _; rewrite dget_dset, str_eqb_refl; reflexivity.
    + intros Hin; contradiction.
Qed.

Lemma merge_fold_other (k : str) (g : grammar) (m : grammar) :
  NoDup (keys m) -> ~ In k (keys g) ->
  NoDup (keys (fold_left merge_rule g m)) /\
  dget k (fold_left merge_rule g m) = dget k m /\
  (In k (keys (fold_left merge_rule g m)) <-> In k (keys m)).
Proof.
  revert m; induction g as [|[key2 r2] g IH]; intros m Hnd Hn; cbn [fold_left]; [tauto|].
  simpl in Hn. destruct (merge_rule_spec m key2 r2 Hnd) as (H1 & H2 & H3 & _).
  destruct (IH _ H1 ltac:(tauto)) as (I1 & I2 & I3). repeat split; auto.
  - rewrite I2; apply H2; intros ->; auto.
  - intros Hx; apply I3, H3 in Hx as [Hx| ->]; auto; exfalso; auto.
  - intros Hx; apply I3, H3; auto.
Qed.

Lemma merge_inner_exact (k : str) (r1 r2 : list str) (m m' : grammar) (f f' : bool) :
  In k (keys m) -> merge_inner k k r1 r2 (m, f) = (m', f') ->
  ((forall z, In z r2 -> In z r1) /\ dget k m' = dget k m) \/
  (exists p y s, r2 = p ++ y :: s /\ ~ In y r1 /\ (forall z, In z s -> In z r1) /\
     dget k m' = Some (r1 ++ [y])).
Proof.
  revert m' f'; induction r2 as [|x r2 IH] using rev_ind; intros m' f' Hk H.
  - unfold merge_inner in H; simpl in H; injection H as -> ->.
    left; split; [intros _ []|reflexivity].
  - unfold merge_inner in H; rewrite fold_left_app in H; cbn [fold_left] in H.
    change (fold_left (merge_alt k k r1) r2 (m, f)) with (merge_inner k k r1 r2 (m, f)) in H.
    destruct (merge_inner k k r1 r2 (m, f)) as [m1 f1] eqn:E1.
    rewrite merge_alt_same in H.
    destruct (existsb (str_eqb x) r1) eqn:Ex.
    + injection H as <- <-.
      assert (Hx : In x r1).
      { apply existsb_exists in Ex as (z & Hz & Ez). apply str_eqb_eq in Ez; subst; exact Hz. }
      destruct (IH m1 f1 Hk eq_refl) as [[Ha Hb]|(p & y & s & -> & Hy & Hs & Hv)].
      * left; split; [|exact Hb]. intros z Hz; apply in_app_iff in Hz as [Hz|[<-|[]]]; auto.
      * right. exists p, y, (s ++ [x]). split; [rewrite <- app_assoc; reflexivity|].
        split; [exact Hy|]. split; [|exact Hv].
        intros z Hz; apply in_app_iff in Hz as [Hz|[<-|[]]]; auto.
    + injection H as <- <-. right. exists r2, x, []. split; [reflexivity|].
      split.
      * intros Hin. assert (existsb (str_eqb x) r1 = true) as Hc
          by (apply existsb_exists; exists x; split; auto; apply str_eqb_refl). congruence.
      * split; [intros _ []|]. rewrite dget_dset, str_eqb_refl; reflexivity.
Qed.

Lemma merge_rule_in (m : grammar) (key2 : str) (r2 : list str) :
  NoDup (keys m) -> In key2 (keys m) ->
  keys (merge_rule m (key2, r2)) = keys m /\
  (forall x, x <> key2 -> dget x (merge_rule m (key2, r2)) = dget x m) /\
  (r2 = [] -> dget key2 (merge_rule m (key2, r2)) = Some []) /\
  (r2 <> [] ->
     ((forall z, In z r2 -> In z (alts_of key2 m)) /\
        dget key2 (merge_rule m (key2, r2)) = dget key2 m) \/
     (exists p y s, r2 = p ++ y :: s /\ ~ In y (alts_of key2 m) /\
        (forall z, In z s -> In z (alts_of key2 m)) /\
        dget key2 (merge_rule m (key2, r2)) = Some (alts_of key2 m ++ [y]))).
Proof.
  intros Hnd Hk. unfold merge_rule.
  pose proof Hk as Hin. apply in_split in Hin as (pre & post & Hkeys).
  pose proof Hnd as Hnd'. rewrite Hkeys in Hnd'. apply NoDup_remove_2 in Hnd'.
  rewrite in_app_iff in Hnd'.
  rewrite Hkeys, fold_left_app, (merge_keys_noop key2 r2 pre) by tauto.
  cbn [fold_left].
  change (merge_key1 key2 r2 (m, false) key2)
    with (merge_inner key2 key2 (alts_of key2 m) r2 (m, false)).
  destruct (merge_inner key2 key2 (alts_of key2 m) r2 (m, false)) as [m1 f1] eqn:Ei.
  destruct (merge_inner_same key2 (alts_of key2 m) r2 m m1 false f1 Hk Ei)
    as (Hf & Hkeys1 & Hoth & _). simpl in Hf.
  pose proof (merge_inner_exact key2 (alts_of key2 m) r2 m m1 false f1 Hk Ei) as Hex.
  rewrite merge_keys_noop by tauto. rewrite <- Hkeys.
  destruct f1.
  - split; [exact Hkeys1|]. split; [exact Hoth|]. split.
    + intros ->; discriminate.
    + intros _; exact Hex.
  - destruct r2 as [|z r2]; [|discriminate].
    split; [rewrite keys_dset_in by (rewrite Hkeys1; auto); exact Hkeys1|].
    split; [intros x Hx; rewrite dget_dset, str_eqb_neq by auto; auto|].
    split; [intros _; rewrite dget_dset, str_eqb_refl; reflexivity|].
    intros Hne; congruence.
Qed.

Lemma merge_rule_out (m : grammar) (key2 : str) (r2 : list str) :
  ~ In key2 (keys m) -> merge_rule m (key2, r2) = m ++ [(key2, r2)].
Proof.
  intros Hout. unfold merge_rule. rewrite merge_keys_noop by exact Hout.
  apply dset_notin; exact Hout.
Qed.

Lemma merge_keys_fold (g2 m : grammar) :
  NoDup (keys m) -> NoDup (keys g2) ->
  keys (fold_left merge_rule g2 m) =
  keys m ++ filter (fun k => negb (existsb (str_eqb k) (keys m))) (keys g2).
Proof.
  revert m; induction g2 as [|[k r] g2 IH]; intros m Hnd Hnd2; [simpl; rewrite app_nil_r; reflexivity|].
  change (fold_left merge_rule ((k, r) :: g2) m) with (fold_left merge_rule g2 (merge_rule m (k, r))).
  change (keys ((k, r) :: g2)) with (k :: keys g2) in *. cbn [filter].
  inversion Hnd2 as [|x l Hk Hnd2']; subst.
  destruct (merge_rule_spec m k r Hnd) as (H1 & _).
  rewrite (IH _ H1 Hnd2').
  destruct (in_dec (list_eq_dec ascii_dec) k (keys m)) as [Hin|Hout].
  - destruct (merge_rule_in m k r Hnd Hin) as (Hkeys & _). rewrite Hkeys.
    replace (existsb (str_eqb k) (keys m)) with true; [reflexivity|].
    symmetry; apply existsb_exists; exists k; split; auto; apply str_eqb_refl.
  - rewrite merge_rule_out by exact Hout.
    replace (existsb (str_eqb k) (keys m)) with false.
    2:{ symmetry; apply not_true_iff_false; intros Ex.
        apply existsb_exists in Ex as (z & Hz & Ez); apply str_eqb_eq in Ez; subst; auto. }
    unfold keys at 1; rewrite map_app; cbn [negb map fst]. rewrite <- app_assoc; cbn [app].
    f_equal. f_equal. apply filter_ext_in. intros z Hz.
    unfold keys; rewrite map_app, existsb_app; cbn [map fst existsb].
    rewrite (str_eqb_neq z k) by (intros ->; contradiction). rewrite orb_false_r; reflexivity.
Qed.

Lemma merge_nodup (g1 g2 : grammar) :
  NoDup (keys g1) -> NoDup (keys (merge_grammars g1 g2)).
Proof.
  unfold merge_grammars; revert g1; induction g2 as [|[k r] g2 IH]; intros g1 H; [exact H|].
  apply IH. apply (merge_rule_spec g1 k r H).
Qed.

Lemma merge_both (g1 g2 : grammar) (k : str) (r1 r2 : list str) :
  NoDup (keys g1) -> NoDup (keys g2) -> dget k g1 = Some r1 -> dget k g2 = Some r2 ->
  (r2 = [] -> dget k (merge_grammars g1 g2) = Some []) /\
  (r2 <> [] ->
     ((forall z, In z r2 -> In z r1) /\ dget k (merge_grammars g1 g2) = Some r1) \/
     (exists p y s, r2 = p ++ y :: s /\ ~ In y r1 /\ (forall z, In z s -> In z r1) /\
        dget k (merge_grammars g1 g2) = Some (r1 ++ [y]))).
Proof.
  intros Hnd1 Hnd2 E1 E2. unfold merge_grammars.
  destruct (dget_split k r2 g2 E2) as (pre & post & Hg2 & Hpre).
  assert (Hpost : ~ In k (keys post)).
  { rewrite Hg2 in Hnd2; unfold keys in Hnd2; rewrite map_app in Hnd2; simpl in Hnd2.
    apply NoDup_remove_2 in Hnd2; rewrite in_app_iff in Hnd2; tauto. }
  rewrite Hg2, fold_left_app; cbn [fold_left].
  destruct (merge_fold_other k pre g1 Hnd1 Hpre) as (P1 & P2 & P3).
  assert (Hin : In k (keys (fold_left merge_rule pre g1))).
  { rewrite P3. destruct (dget_split k r1 g1 E1) as (a & b & -> & _).
    unfold keys; rewrite map_app, in_app_iff; right; left; reflexivity. }
  assert (Ha : alts_of k (fold_left merge_rule pre g1) = r1) by (apply alts_of_some; rewrite P2; auto).
  destruct (merge_rule_in _ k r2 P1 Hin) as (R1 & R2 & R3 & R4).
  destruct (merge_rule_spec (fold_left merge_rule pre g1) k r2 P1) as (N1 & _).
  destruct (merge_fold_other k post _ N1 Hpost) as (Q1 & Q2 & Q3).
  rewrite Q2. rewrite Ha in R4. split; [exact R3|].
  intros Hne. destruct (R4 Hne) as [[Hall Hv]|Hex]; [left; split; [exact Hall|] | right; exact Hex].
  rewrite Hv, P2; exact E1.
Qed.

(** *** The tracer *)

Definition trace_step (input : str) (acc : dict str) (b : str * pyval) : dict str :=
  let '(var, value) := b in
  match value with
  | PStr s => if (2 <=? length s) && is_sub s input then dset var s acc else acc
  | POther => acc
  end.

Lemma traceit_fold (input : str) (ev : event) (vals : dict str) :
  traceit input ev vals = fold_left (trace_step input) (ev_locals ev) vals.
Proof. reflexivity. Qed.

Lemma run_hook_fold (input : str) (evs : list event) (vals : dict str) :
  run_hook input evs vals = fold_left (trace_step input) (concat (map ev_locals evs)) vals.
Proof.
  revert vals; induction evs as [|ev evs IH]; intros vals; simpl; auto.
  rewrite fold_left_app, IH; reflexivity.
Qed.

Lemma trace_step_get (input var : str) (acc : dict str) (b : str * pyval) :
  dget var (trace_step input acc b) =
  if str_eqb (fst b) var && qualifies input (snd b) then
    match snd b with PStr s => Some s | POther => None end
  else dget var acc.
Proof.
  destruct b as [n [s|]]; cbn [trace_step fst snd qualifies];
    [|rewrite andb_false_r; reflexivity].
  destruct ((2 <=? length s) && is_sub s input) eqn:Q.
  - rewrite dget_dset, andb_true_r.
    destruct (str_eqb n var) eqn:E1, (str_eqb var n) eqn:E2; auto;
      [apply str_eqb_eq in E1; subst; rewrite str_eqb_refl in E2; discriminate
      |apply str_eqb_eq in E2; subst; rewrite str_eqb_refl in E1; discriminate].
  - rewrite andb_false_r; reflexivity.
Qed.

Lemma trace_fold_last (input var : str) (bs : list (str * pyval)) (acc : dict str) :
  dget var (fold_left (trace_step input) bs acc) =
  match last_qualifying input var bs with Some s => Some s | None => dget var acc end.
Proof.
  induction bs as [|b bs IH] using rev_ind; [reflexivity|].
  rewrite fold_left_app; simpl. rewrite trace_step_get, IH.
  unfold last_qualifying. rewrite rev_app_distr; simpl.
  destruct b as [n v]; simpl.
  destruct (str_eqb n var && qualifies input v) eqn:Q; [|reflexivity].
  destruct v as [s|]; [reflexivity|].
  apply andb_prop in Q as [_ Q]; discriminate.
Qed.

Lemma trace_fold_other (input var : str) (bs : list (str * pyval)) (acc : dict str) :
  ~ In var (map fst bs) -> dget var (fold_left (trace_step input) bs acc) = dget var acc.
Proof.
  revert acc; induction bs as [|b bs IH]; intros acc Hn; simpl; auto.
  simpl in Hn. rewrite IH by tauto. rewrite trace_step_get.
  rewrite (str_eqb_neq (fst b) var) by (intros E; apply Hn; auto); reflexivity.
Qed.

(** *** The pending rules of a pass *)

Lemma subst_alts_vars (var value : str) (alts : list str) :
  forall t, In t (snd (subst_alts var value alts)) -> triple_var t = var.
Proof.
  induction alts as [|repl rest IH]; simpl; [tauto|].
  destruct (subst_alts var value rest) as [rest' nr] eqn:E; simpl in IH.
  destruct (is_sub value repl); simpl; auto.
  intros t [<-|Ht]; auto.
Qed.

Lemma subst_rules_vars (var value : str) (g : grammar) :
  forall t, In t (snd (subst_rules var value g)) -> triple_var t = var.
Proof.
  induction g as [|[key alts] g IH]; simpl; [tauto|].
  pose proof (subst_alts_vars var value alts) as Ha.
  destruct (subst_alts var value alts) as [alts' nr1].
  destruct (subst_rules var value g) as [g'' nr2]; simpl in *.
  intros t Ht; apply in_app_iff in Ht as [Ht|Ht]; auto.
Qed.

Lemma scan_pass_vars (values : dict str) (g g' : grammar) (nr : list triple) :
  scan_pass values g = (g', nr) -> forall t, In t nr -> In (triple_var t) (keys values).
Proof.
  unfold scan_pass.
  assert (forall nr0 g0, fold_left
     (fun '(g, nr) '(var, value) =>
        let '(g', nr') := subst_rules var value g in (g', nr ++ nr')) values (g0, nr0) = (g', nr) ->
     forall t, In t nr -> In t nr0 \/ In (triple_var t) (keys values)) as Hgen.
  { induction values as [|[var value] values IH]; simpl; intros nr0 g0 H t Ht.
    - injection H as _ <-; auto.
    - pose proof (subst_rules_vars var value g0) as Hv.
      destruct (subst_rules var value g0) as [g1 nr1] eqn:E.
      destruct (IH _ _ H t Ht) as [Hin|Hin]; auto.
      apply in_app_iff in Hin as [Hin|Hin]; auto.
      right; left; symmetry; apply Hv; exact Hin. }
  intros H t Ht; destruct (Hgen [] g H t Ht) as [[]|]; auto.
Qed.

(** A second deletion of a variable already deleted raises KeyError. *)
Lemma promote_absent (var : str) (nr : list triple) (g : grammar) (values : dict str) :
  NoDup (keys values) -> ~ In var (keys values) -> In var (map triple_var nr) ->
  promote nr g values = None.
Proof.
  revert g values; induction nr as [|[[v k] x] nr IH]; intros g values Hnd Hn Hin;
    simpl in *; [contradiction|].
  destruct Hin as [<-|Hin].
  - rewrite ddel_none; auto.
  - destruct (ddel v values) as [values'|] eqn:Ed; auto.
    destruct (ddel_nodup _ _ _ Ed Hnd) as [Hnd' Hk].
    apply IH; auto. rewrite Hk; tauto.
Qed.

Lemma promote_dup (var : str) (nr : list triple) (g : grammar) (values : dict str) :
  NoDup (keys values) ->
  (exists pre mid post t1 t2, nr = pre ++ t1 :: mid ++ t2 :: post /\
     triple_var t1 = var /\ triple_var t2 = var) ->
  promote nr g values = None.
Proof.
  intros Hnd (pre & mid & post & t1 & t2 & -> & H1 & H2).
  revert g values Hnd; induction pre as [|[[v k] x] pre IH]; intros g values Hnd; simpl.
  - destruct t1 as [[v k] x]; simpl in H1; subst v.
    destruct (ddel var values) as [values'|] eqn:Ed; auto.
    destruct (ddel_nodup _ _ _ Ed Hnd) as [Hnd' Hk].
    apply promote_absent with var; auto.
    + rewrite Hk; tauto.
    + rewrite map_app, in_app_iff; right; simpl; auto.
  - destruct (ddel v values) as [values'|] eqn:Ed; auto.
    apply IH; apply (ddel_nodup _ _ _ Ed Hnd).
Qed.

(** *** Termination of the extraction loop *)

Lemma promote_length (nr : list triple) (g g' : grammar) (values values' : dict str) :
  promote nr g values = Some (g', values') -> length values' + length nr = length values.
Proof.
  revert g values; induction nr as [|[[v k] x] nr IH]; intros g values H; simpl in H.
  - injection H as _ Hv; subst; simpl; lia.
  - destruct (ddel v values) as [values1|] eqn:Ed; [|discriminate].
    apply ddel_length in Ed. apply IH in H. simpl; lia.
Qed.

(** *** Token lists *)

Lemma render_cons (t : tok) (ts : list tok) : render (t :: ts) = tok_text t ++ render ts.
Proof. reflexivity. Qed.

Lemma render_app (ts1 ts2 : list tok) : render (ts1 ++ ts2) = render ts1 ++ render ts2.
Proof. unfold render; rewrite map_app, concat_app; reflexivity. Qed.

Lemma render_lits (s : str) : render (map TL s) = s.
Proof. induction s as [|c s IH]; simpl; auto. rewrite render_cons, IH; reflexivity. Qed.

Lemma flat_cons (r : str -> str) (t : tok) (ts : list tok) :
  flat r (t :: ts) = match t with TL c => [c] | TN n => r (nt_text n) end ++ flat r ts.
Proof. reflexivity. Qed.

Lemma flat_app (r : str -> str) (ts1 ts2 : list tok) : flat r (ts1 ++ ts2) = flat r ts1 ++ flat r ts2.
Proof. unfold flat; rewrite map_app, concat_app; reflexivity. Qed.

Lemma flat_lits (r : str -> str) (s : str) : flat r (map TL s) = s.
Proof. induction s as [|c s IH]; simpl; auto. rewrite flat_cons, IH; reflexivity. Qed.

Lemma tokenize_name (n b s : str) :
  name_ok n -> tokenize_from (Some b) (n ++ ">"%char :: s) = TN (rev b ++ n) :: tokenize_from None s.
Proof.
  revert b; induction n as [|c n IH]; intros b Hn.
  - simpl; rewrite app_nil_r; reflexivity.
  - destruct (Hn c (or_introl eq_refl)) as (H1 & H2 & H3).
    cbn [app tokenize_from].
    rewrite (proj2 (Ascii.eqb_neq c _) H2), (proj2 (Ascii.eqb_neq c _) H1),
      (proj2 (Ascii.eqb_neq c _) H3).
    rewrite IH by (intros x Hx; apply Hn; simpl; auto).
    simpl; rewrite <- app_assoc; reflexivity.
Qed.

Lemma tokenize_render (ts : list tok) : (forall t, In t ts -> tok_ok t) -> tokenize (render ts) = ts.
Proof.
  unfold tokenize; induction ts as [|[c|n] ts IH]; intros H; [reflexivity| |].
  - destruct (H (TL c) (or_introl eq_refl)) as [H1 _].
    rewrite render_cons; cbn [tok_text app tokenize_from].
    rewrite (proj2 (Ascii.eqb_neq c _) H1). f_equal. apply IH; intros t Ht; apply H; simpl; auto.
  - pose proof (H (TN n) (or_introl eq_refl)) as Hn; simpl in Hn.
    rewrite render_cons; cbn [tok_text]; unfold nt_text.
    rewrite <- app_comm_cons, <- app_assoc. cbn [app tokenize_from Ascii.eqb].
    rewrite tokenize_name by exact Hn. simpl. f_equal. apply IH; intros t Ht; apply H; simpl; auto.
Qed.

Lemma prefix_stop (p x y : str) (c : ascii) :
  (forall d, In d p -> lit_ok d) -> ~ lit_ok c ->
  is_prefix p (x ++ c :: y) = true -> is_prefix p x = true.
Proof.
  revert p; induction x as [|d x IH]; intros [|e p] Hp Hc H; simpl in *; auto.
  - apply andb_prop in H as [He _]; apply Ascii.eqb_eq in He; subst.
    exfalso; apply Hc, Hp; auto.
  - apply andb_prop in H as [He H]; rewrite He; simpl.
    apply IH; auto.
Qed.

Lemma prefix_sub (p s : str) (i : nat) : is_prefix p (skipn i s) = true -> is_sub p s = true.
Proof.
  revert i; induction s as [|d s IH]; intros i H.
  - destruct i; simpl in *; rewrite H; reflexivity.
  - destruct i as [|i]; [apply is_sub_prefix; exact H|].
    simpl in H; simpl; rewrite (IH i H); apply orb_true_r.
Qed.

Lemma lits_prefix (p : str) (ts : list tok) :
  (forall d, In d p -> lit_ok d) -> is_prefix p (render ts) = true ->
  exists ts2, ts = map TL p ++ ts2.
Proof.
  revert ts; induction p as [|e p IH]; intros ts Hp H; [exists ts; reflexivity|].
  destruct ts as [|[c|n] ts]; [simpl in H; discriminate| |].
  - rewrite render_cons in H; simpl in H.
    apply andb_prop in H as [He H]; apply Ascii.eqb_eq in He; subst.
    destruct (IH ts) as [ts2 ->]; [intros d Hd; apply Hp; simpl; auto | exact H |].
    exists ts2; reflexivity.
  - rewrite render_cons in H; simpl in H.
    apply andb_prop in H as [He _]; apply Ascii.eqb_eq in He; subst.
    destruct (Hp "<"%char (or_introl eq_refl)) as [Hl _]; congruence.
Qed.

(** *** [str.replace] of a bracket-free value on a token list *)

Section TokReplace.
Variables (v w : str) (r : str -> str).
Hypothesis Hv_ne : v <> [].
Hypothesis Hv_lit : forall c, In c v -> lit_ok c.
Hypothesis Hw : name_ok w.
Hypothesis Hr : r (nt_text w) = v.

Lemma no_match_in_name (n t : str) :
  is_sub v n = false ->
  forall i, i < length (nt_text n) -> is_prefix v (skipn i (nt_text n ++ t)) = false.
Proof.
  intros Hn i Hi.
  destruct (is_prefix v (skipn i (nt_text n ++ t))) eqn:Hp; [exfalso|reflexivity].
  destruct i as [|i].
  - destruct v as [|e v'] eqn:Ev; [congruence|].
    simpl in Hp; apply andb_prop in Hp as [He _]; apply Ascii.eqb_eq in He; subst e.
    destruct (Hv_lit "<"%char (or_introl eq_refl)) as [H1 _]; congruence.
  - unfold nt_text in Hi, Hp; simpl in Hi, Hp.
    rewrite <- app_assoc in Hp; simpl in Hp.
    rewrite length_app in Hi; simpl in Hi.
    rewrite skipn_app in Hp.
    replace (i - length n) with 0 in Hp by lia; simpl in Hp.
    apply prefix_stop in Hp; [| exact Hv_lit | intros [_ H]; apply H; reflexivity].
    apply prefix_sub in Hp; congruence.
Qed.

Lemma repl_toks (N fuel : nat) (ts : list tok) :
  fuel <= N -> length (render ts) <= fuel ->
  (forall t, In t ts -> tok_ok t) ->
  (forall n, In (TN n) ts -> is_sub v n = false) ->
  exists ts', repl_aux v (nt_text w) fuel (render ts) = render ts' /\
    (forall t, In t ts' -> tok_ok t) /\ flat r ts' = flat r ts /\
    (forall n, In (TN n) ts' -> In (TN n) ts \/ n = w).
Proof.
  revert fuel ts; induction N as [|N IH]; intros fuel ts HN Hlen Hok Hnm.
  - destruct ts as [|t ts].
    + exists []; destruct fuel; simpl; repeat split; auto; intros _ [].
    + destruct t; rewrite render_cons in Hlen; simpl in Hlen; lia.
  - destruct ts as [|[c|n] ts].
    + exists []; destruct fuel; simpl; repeat split; auto; intros _ [].
    + rewrite render_cons in *; cbn [tok_text app] in *.
      destruct fuel as [|f]; [simpl in Hlen; lia|]. simpl in Hlen.
      cbn [repl_aux].
      assert (Hok' : forall t, In t ts -> tok_ok t) by (intros; apply Hok; simpl; auto).
      assert (Hnm' : forall n, In (TN n) ts -> is_sub v n = false) by (intros; apply Hnm; simpl; auto).
      destruct (is_prefix v (c :: render ts)) eqn:Hp.
      * destruct v as [|e v'] eqn:Ev; [congruence|].
        simpl in Hp; apply andb_prop in Hp as [He Hp]; apply Ascii.eqb_eq in He; subst e.
        destruct (lits_prefix v' ts) as [ts2 ->]; [intros d Hd; apply Hv_lit; simpl; auto | exact Hp |].
        rewrite render_app, render_lits in *.
        change (length (c :: v')) with (S (length v')).
        cbn [skipn]. rewrite skipn_app_length.
        rewrite length_app in Hlen.
        destruct (IH f ts2) as (ts' & E & Ho & Hf & Hn); try lia.
        { intros; apply Hok'; apply in_app_iff; auto. }
        { intros; apply Hnm'; apply in_app_iff; auto. }
        exists (TN w :: ts'). rewrite render_cons, E. repeat split; auto.
        -- intros t [<-|Ht]; [exact Hw | auto].
        -- rewrite !flat_cons, Hf, Hr, flat_app, flat_lits; reflexivity.
        -- intros m [Hm|Hm]; [injection Hm as ->; auto|].
           destruct (Hn m Hm) as [H|H]; auto. left; right; apply in_app_iff; auto.
      * destruct (IH f ts) as (ts' & E & Ho & Hf & Hn); try lia; auto.
        exists (TL c :: ts'). rewrite render_cons, E. repeat split; auto.
        -- intros t [<-|Ht]; [apply Hok; simpl; auto | auto].
        -- rewrite !flat_cons, Hf; reflexivity.
        -- intros m [Hm|Hm]; [discriminate|]. destruct (Hn m Hm); simpl; auto.
    + rewrite render_cons in *; cbn [tok_text] in *.
      rewrite repl_aux_skip; [| apply no_match_in_name; apply Hnm; simpl; auto | exact Hlen].
      rewrite length_app in Hlen.
      assert (H3 : 2 <= length (nt_text n)) by (unfold nt_text; simpl; rewrite length_app; simpl; lia).
      destruct (IH (fuel - length (nt_text n)) ts) as (ts' & E & Ho & Hf & Hn); try lia.
      { intros; apply Hok; simpl; auto. }
      { intros; apply Hnm; simpl; auto. }
      exists (TN n :: ts'). rewrite render_cons, E. repeat split; auto.
      -- intros t [<-|Ht]; [apply Hok; simpl; auto | auto].
      -- rewrite !flat_cons, Hf; reflexivity.
      -- intros m [Hm|Hm]; [left; left; exact Hm|]. destruct (Hn m Hm); simpl; auto.
Qed.

Lemma replace_toks (ts : list tok) :
  (forall t, In t ts -> tok_ok t) ->
  (forall n, In (TN n) ts -> is_sub v n = false) ->
  exists ts', py_replace v (nt_text w) (render ts) = render ts' /\
    (forall t, In t ts' -> tok_ok t) /\ flat r ts' = flat r ts /\
    (forall n, In (TN n) ts' -> In (TN n) ts \/ n = w).
Proof.
  intros Hok Hnm. rewrite py_replace_nonempty by exact Hv_ne.
  apply (repl_toks (length (render ts))); auto.
Qed.
End TokReplace.

(** *** Small facts used by the round-trip argument *)

Lemma is_sub_in (p s : str) : is_sub p s = true -> forall c, In c p -> In c s.
Proof.
  induction s as [|d s IH]; intros H c Hc.
  - destruct p; simpl in H; [contradiction | discriminate].
  - simpl in H. apply orb_prop in H as [H|H].
    + apply is_prefix_spec in H as [x Hx]. rewrite Hx. apply in_app_iff; auto.
    + right; auto.
Qed.

Lemma lower_name_ok (u : str) : name_ok u -> name_ok (lower u).
Proof.
  intros Hu c Hc. unfold lower in Hc. apply in_map_iff in Hc as (d & <- & Hd).
  destruct (Hu d Hd) as (H1 & H2 & H3). unfold lower_char.
  destruct ((65 <=? nat_of_ascii d) && (nat_of_ascii d <=? 90)) eqn:E; auto.
  apply andb_prop in E as [E1 E2]; apply Nat.leb_le in E1, E2.
  assert (Hn : nat_of_ascii (ascii_of_nat (nat_of_ascii d + 32)) = nat_of_ascii d + 32)
    by (apply nat_ascii_embedding; lia).
  repeat split; intros Ee; rewrite Ee in Hn;
    [change (nat_of_ascii "<"%char) with 60 in Hn
    |change (nat_of_ascii ">"%char) with 62 in Hn
    |change (nat_of_ascii " "%char) with 32 in Hn]; lia.
Qed.

Lemma nt_text_inj (a b : str) : nt_text a = nt_text b -> a = b.
Proof. unfold nt_text; intros H; injection H as H. apply app_inj_tail in H; tauto. Qed.

Lemma nonterminal_nt (u : str) : nonterminal u = nt_text (lower u).
Proof. reflexivity. Qed.

Lemma NoDup_map_inj {A B} (f : A -> B) (l : list A) (a b : A) :
  NoDup (map f l) -> In a l -> In b l -> f a = f b -> a = b.
Proof.
  induction l as [|x l IH]; simpl; intros Hnd Ha Hb E; [contradiction|].
  inversion Hnd as [|y m Hn Hnd']; subst.
  destruct Ha as [<-|Ha], Hb as [<-|Hb]; auto.
  - exfalso; apply Hn; rewrite E; apply in_map; auto.
  - exfalso; apply Hn; rewrite <- E; apply in_map; auto.
Qed.

Lemma NoDup_snoc {A} (l : list A) (a : A) : NoDup l -> ~ In a l -> NoDup (l ++ [a]).
Proof.
  induction l as [|x l IH]; simpl; intros Hnd Hn; [constructor; [auto|constructor]|].
  inversion Hnd; subst. constructor; [|apply IH; auto].
  rewrite in_app_iff; simpl; intuition.
Qed.

Lemma in_dset {V} (k : str) (v : V) (d : dict V) (p : str * V) :
  In p (dset k v d) -> In p d \/ p = (k, v).
Proof.
  induction d as [|[k' v'] d IH]; simpl; [intuition|].
  destruct (str_eqb k k'); simpl; intuition.
Qed.

Lemma nth_dget {V} (g : dict V) (j : nat) (k : str) (a : V) :
  NoDup (keys g) -> nth_error g j = Some (k, a) -> dget k g = Some a.
Proof.
  revert j; induction g as [|[k0 a0] g IH]; intros j Hnd H; [destruct j; discriminate|].
  inversion Hnd as [|x l Hn Hnd']; subst. destruct j as [|j]; simpl in H |- *.
  - injection H as -> ->. rewrite str_eqb_refl; reflexivity.
  - rewrite str_eqb_neq; [eapply IH; eauto|].
    intros ->. apply Hn. apply nth_error_In in H. apply (in_map fst) in H. exact H.
Qed.

Lemma subst_rules_map (var value : str) (g : grammar) :
  subst_rules var value g =
  (map (fun kv => (fst kv, fst (subst_alts var value (snd kv)))) g,
   concat (map (fun kv => snd (subst_alts var value (snd kv))) g)).
Proof.
  induction g as [|[k alts] g IH]; [reflexivity|]. simpl.
  destruct (subst_alts var value alts) as [a1 n1]. rewrite IH. reflexivity.
Qed.

Lemma subst_alts_triples (var value : str) (alts : list str) (t : triple) :
  In t (snd (subst_alts var value alts)) -> t = (var, nonterminal var, value).
Proof.
  induction alts as [|a alts IH]; simpl; [tauto|].
  destruct (subst_alts var value alts) as [a1 n1]; simpl in IH.
  destruct (is_sub value a); simpl; intuition.
Qed.

Lemma expand_toks_ok (r : str -> str) (ex : str -> option str) (g : grammar) (ts : list tok) :
  (forall n, In (TN n) ts -> exists b, dget (nt_text n) g = Some [b] /\ ex b = Some (r (nt_text n))) ->
  expand_toks ex g ts = Some (flat r ts).
Proof.
  induction ts as [|[c|n] ts IH]; intros H; [reflexivity| |].
  - cbn [expand_toks]. rewrite IH by (intros; apply H; simpl; auto). reflexivity.
  - cbn [expand_toks]. destruct (H n (or_introl eq_refl)) as (b & Hb & Ex).
    rewrite Hb, IH, Ex by (intros; apply H; simpl; auto). reflexivity.
Qed.

Lemma trace_fold_qual (input : str) (bs : list (str * pyval)) (acc : dict str) :
  (forall u x, In (u, x) acc -> 2 <= length x /\ is_sub x input = true) ->
  forall u x, In (u, x) (fold_left (trace_step input) bs acc) -> 2 <= length x /\ is_sub x input = true.
Proof.
  revert acc; induction bs as [|[n [v|]] bs IH]; intros acc Hacc; cbn [fold_left trace_step];
    [exact Hacc | | apply IH; exact Hacc].
  apply IH. destruct ((2 <=? length v) && is_sub v input) eqn:Q; [|exact Hacc].
  intros u x Hin. apply in_dset in Hin as [Hin|Hin]; [exact (Hacc u x Hin)|].
  injection Hin as -> ->. apply andb_prop in Q as [Q1 Q2]; apply Nat.leb_le in Q1; auto.
Qed.

(** *** The extraction invariant *)

Section Extraction.
Variables (input : str) (rec : dict str).
(** The input has no angle brackets. *)
Hypothesis Hin : forall c, In c input -> lit_ok c.
(** What the tracer stores: values of length at least 2 occurring in the input. *)
Hypothesis Hrec : forall u x, In (u, x) rec -> 2 <= length x /\ is_sub x input = true.
(** Distinct variables get distinct nonterminals, none of them the start symbol. *)
Hypothesis Hlow : NoDup (map (fun p => lower (fst p)) rec).
Hypothesis Hstart : forall u, In u (keys rec) -> lower u <> lit "start".
Hypothesis Hname : forall u, In u (keys rec) -> name_ok u.
(** No value occurs inside a nonterminal's name. *)
Hypothesis Hsub : forall u x w, In (u, x) rec -> In w (keys rec) -> is_sub x (lower w) = false.

Let r := rho input rec.

Lemma rec_key (u x : str) : In (u, x) rec -> In u (keys rec).
Proof. intros H; apply (in_map fst) in H; exact H. Qed.

Lemma rec_lit (u x : str) : In (u, x) rec -> forall c, In c x -> lit_ok c.
Proof. intros H c Hc. apply Hin. apply (is_sub_in x input); [apply (Hrec u x H) | exact Hc]. Qed.

Lemma rec_ne (u x : str) : In (u, x) rec -> x <> [].
Proof. intros H ->. destruct (Hrec u [] H) as [H1 _]; simpl in H1; lia. Qed.

Lemma rec_nodup : NoDup (keys rec).
Proof.
  unfold keys. apply (NoDup_map_inv lower). rewrite map_map. exact Hlow.
Qed.

Lemma rec_inj (u x u' x' : str) :
  In (u, x) rec -> In (u', x') rec -> nonterminal u = nonterminal u' -> u = u' /\ x = x'.
Proof.
  intros H H' E. rewrite !nonterminal_nt in E. apply nt_text_inj in E.
  assert (Ep : (u, x) = (u', x')) by (apply (NoDup_map_inj _ rec _ _ Hlow H H'); exact E).
  injection Ep; auto.
Qed.

Lemma nonterminal_not_start (u : str) : In u (keys rec) -> nonterminal u <> START_SYMBOL.
Proof.
  intros H E. rewrite nonterminal_nt in E.
  change START_SYMBOL with (nt_text (lit "start")) in E.
  apply nt_text_inj in E. exact (Hstart u H E).
Qed.

Lemma rho_start : r START_SYMBOL = input.
Proof. unfold r, rho; rewrite str_eqb_refl; reflexivity. Qed.

Lemma rho_var (u x : str) : In (u, x) rec -> r (nonterminal u) = x.
Proof.
  intros H. unfold r, rho.
  rewrite str_eqb_neq by (apply nonterminal_not_start; eapply rec_key; eauto).
  destruct (find (fun p => str_eqb (nonterminal (fst p)) (nonterminal u)) rec) as [[u' x']|] eqn:F.
  - apply find_some in F as [Hp E]; simpl in E. apply str_eqb_eq in E.
    destruct (rec_inj u' x' u x Hp H E); auto.
  - apply (find_none _ _ F) in H; simpl in H. rewrite str_eqb_refl in H; discriminate.
Qed.

(** Every reference of the alternative at index [i] names a traced
    variable and points to a later rule or to a pending one. *)
Definition refs_ok (g : grammar) (pend : list triple) (i : nat) (ts : list tok) : Prop :=
  forall n, In (TN n) ts ->
    (exists u, In u (keys rec) /\ n = lower u) /\
    ((exists j alts, i < j /\ nth_error g j = Some (nt_text n, alts)) \/
     (exists t, In t pend /\ nt_text n = snd (fst t))).

Definition ginv (vals : dict str) (g : grammar) (pend : list triple) : Prop :=
  NoDup (keys vals) /\ (forall u x, In (u, x) vals -> In (u, x) rec) /\
  NoDup (keys g) /\ (exists a0 g0, g = (START_SYMBOL, a0) :: g0) /\
  (forall t, In t pend -> exists u x, t = (u, nonterminal u, x) /\ In (u, x) vals) /\
  (forall k, In k (keys g) -> k = START_SYMBOL \/
     exists u x, In (u, x) rec /\ ~ In u (keys vals) /\ k = nonterminal u) /\
  (forall i k alts, nth_error g i = Some (k, alts) ->
     exists ts, alts = [render ts] /\ (forall t, In t ts -> tok_ok t) /\
                flat r ts = r k /\ refs_ok g pend i ts).

Lemma refs_mono (g g' : grammar) (pend pend' : list triple) (i : nat) (ts : list tok) :
  (forall j k a, nth_error g j = Some (k, a) -> exists a', nth_error g' j = Some (k, a')) ->
  (forall t, In t pend -> In t pend') ->
  refs_ok g pend i ts -> refs_ok g' pend' i ts.
Proof.
  intros Hg Hp H n Hn. destruct (H n Hn) as [Hu [(j & a & Hij & Hj)|(t & Ht & E)]].
  - split; auto. left. destruct (Hg _ _ _ Hj) as [a' Ha']. eauto.
  - split; auto. right. eauto.
Qed.

Lemma ginv_init : ginv rec [(START_SYMBOL, [input])] [].
Proof.
  repeat split.
  - exact rec_nodup.
  - auto.
  - constructor; [intros []|constructor].
  - eauto.
  - intros t [].
  - intros k [<-|[]]; auto.
  - intros [|i] k alts H; simpl in H; [|destruct i; discriminate].
    injection H as <- <-. exists (map TL input).
    split; [rewrite render_lits; reflexivity|].
    split; [intros t Ht; apply in_map_iff in Ht as (c & <- & Hc); exact (Hin c Hc)|].
    split; [rewrite flat_lits, rho_start; reflexivity|].
    intros m Hm; apply in_map_iff in Hm as (c & E & _); discriminate.
Qed.

Lemma subst_rules_inv (vals : dict str) (g g' : grammar) (pend nr : list triple) (u x : str) :
  ginv vals g pend -> In (u, x) vals -> subst_rules u x g = (g', nr) -> ginv vals g' (pend ++ nr).
Proof.
  intros (Hv1 & Hv2 & Hg1 & (a0 & g0 & Hg2) & Hp & Hk & Hi) Hux E.
  rewrite subst_rules_map in E. injection E as <- <-.
  assert (Hkeys : keys (map (fun kv => (fst kv, fst (subst_alts u x (snd kv)))) g) = keys g).
  { unfold keys; rewrite map_map; reflexivity. }
  assert (Hrx : In (u, x) rec) by auto.
  assert (Hnth : forall j k a, nth_error g j = Some (k, a) ->
    nth_error (map (fun kv => (fst kv, fst (subst_alts u x (snd kv)))) g) j =
    Some (k, fst (subst_alts u x a))) by (intros j k a H; rewrite nth_error_map, H; reflexivity).
  repeat split; auto.
  - rewrite Hkeys; exact Hg1.
  - subst g; simpl; eauto.
  - intros t Ht. apply in_app_iff in Ht as [Ht|Ht]; auto.
    apply in_concat in Ht as (l & Hl & Ht). apply in_map_iff in Hl as (kv & <- & _).
    apply subst_alts_triples in Ht; subst t; eauto.
  - intros k Hk'; rewrite Hkeys in Hk'; auto.
  - intros i k alts' H.
    rewrite nth_error_map in H. destruct (nth_error g i) as [[k0 alts]|] eqn:Ei; [|discriminate].
    simpl in H; injection H as <- <-.
    destruct (Hi i k0 alts Ei) as (ts & -> & Hok & Hf & Hr).
    assert (Hmono : forall pp, (forall t, In t pend -> In t pp) -> refs_ok
      (map (fun kv => (fst kv, fst (subst_alts u x (snd kv)))) g) pp i ts).
    { intros pp Hpp; apply (refs_mono g _ pend); auto.
      intros j k a Hj; rewrite (Hnth j k a Hj); eauto. }
    cbn [subst_alts snd fst].
    destruct (is_sub x (render ts)) eqn:Hs; cbn [fst].
    + assert (H1 : x <> []) by (eapply rec_ne; eauto).
      assert (H2 : forall c, In c x -> lit_ok c) by (eapply rec_lit; eauto).
      assert (H3 : name_ok (lower u)) by (apply lower_name_ok, Hname; eapply rec_key; eauto).
      assert (H4 : r (nt_text (lower u)) = x) by (rewrite <- nonterminal_nt; apply rho_var; auto).
      destruct (replace_toks x (lower u) r H1 H2 H3 H4 ts) as (ts' & Er & Hok' & Hf' & Hn');
        [auto | intros m Hm; destruct (Hr m Hm) as [(w & Hw & ->) _]; eapply Hsub; eauto |].
      exists ts'. rewrite nonterminal_nt, Er.
      split; [reflexivity|]. split; [exact Hok'|]. split; [rewrite Hf'; exact Hf|].
      intros n Hn. destruct (Hn' n Hn) as [Hn0 | ->].
        -- apply (Hmono (pend ++ concat (map (fun kv => snd (subst_alts u x (snd kv))) g)));
             [intros t Ht; apply in_app_iff; auto | exact Hn0].
        -- split; [exists u; split; auto; eapply rec_key; eauto|].
           right. exists (u, nonterminal u, x). split; [|reflexivity].
           apply in_app_iff; right. apply in_concat. exists [(u, nonterminal u, x)].
           split; [|left; reflexivity]. apply in_map_iff. exists (k0, [render ts]).
           split; [cbn [snd subst_alts]; rewrite Hs; reflexivity | eapply nth_error_In; eauto].
    + exists ts. split; [reflexivity|]. split; [exact Hok|]. split; [exact Hf|].
      apply Hmono; intros t Ht; apply in_app_iff; auto.
Qed.

Lemma scan_pass_inv (vals : dict str) (g g' : grammar) (nr : list triple) :
  ginv vals g [] -> scan_pass vals g = (g', nr) -> ginv vals g' nr.
Proof.
  unfold scan_pass. intros H0.
  assert (Hgen : forall l g0 nr0, (forall p, In p l -> In p vals) -> ginv vals g0 nr0 ->
    fold_left (fun '(g, nr) '(var, value) =>
      let '(g', nr') := subst_rules var value g in (g', nr ++ nr')) l (g0, nr0) = (g', nr) ->
    ginv vals g' nr).
  { induction l as [|[var value] l IH]; intros g0 nr0 Hl Hg E; simpl in E.
    - injection E as <- <-; exact Hg.
    - destruct (subst_rules var value g0) as [g1 nr1] eqn:Es.
      apply (IH g1 (nr0 ++ nr1)); auto.
      + intros p Hp; apply Hl; simpl; auto.
      + apply (subst_rules_inv vals g0 g1 nr0 nr1 var value); auto. apply Hl; simpl; auto. }
  apply (Hgen vals g []); auto.
Qed.

Lemma promote_inv (pend : list triple) (vals vals' : dict str) (g g' : grammar) :
  ginv vals g pend -> promote pend g vals = Some (g', vals') -> ginv vals' g' [].
Proof.
  revert vals g; induction pend as [|t rest IH]; intros vals g Hg E.
  - simpl in E; injection E as <- <-; exact Hg.
  - destruct Hg as (Hv1 & Hv2 & Hg1 & (a0 & g0 & Hg2) & Hp & Hk & Hi).
    destruct (Hp t (or_introl eq_refl)) as (w & x & -> & Hwx).
    simpl in E. destruct (ddel w vals) as [vals1|] eqn:Ed; [|discriminate].
    destruct (ddel_nodup _ _ _ Ed Hv1) as [Hnd1 Hk1].
    destruct (ddel_some _ _ _ Ed) as (pre & v0 & post & Evals & Evals1 & Hpre).
    assert (Hwr : In (w, x) rec) by auto.
    assert (Hfresh : ~ In (nonterminal w) (keys g)).
    { intros Hin'. destruct (Hk _ Hin') as [Es|(u & y & Huy & Hu & Eu)].
      - exact (nonterminal_not_start w (rec_key _ _ Hwr) Es).
      - destruct (rec_inj u y w x Huy Hwr (eq_sym Eu)) as [-> _].
        apply Hu. apply (in_map fst) in Hwx; exact Hwx. }
    rewrite dset_notin in E by exact Hfresh.
    apply (IH vals1 (g ++ [(nonterminal w, [x])])); [|exact E].
    assert (Hsub1 : forall p, In p vals1 -> In p vals).
    { intros p Hp'; rewrite Evals; rewrite Evals1 in Hp'.
      apply in_app_iff in Hp' as [H|H]; apply in_app_iff; simpl; auto. }
    assert (Hlen : forall i k a, nth_error g i = Some (k, a) -> i < length g).
    { intros i k a H; apply nth_error_Some; congruence. }
    assert (Hnth : forall j k a, nth_error g j = Some (k, a) ->
              nth_error (g ++ [(nonterminal w, [x])]) j = Some (k, a)).
    { intros j k a H; rewrite nth_error_app1; [exact H | eapply Hlen; eauto]. }
    refine (conj Hnd1 (conj _ (conj _ (conj _ (conj _ (conj _ _)))))).
    + intros u y H; apply Hv2, Hsub1, H.
    + unfold keys; rewrite map_app; apply NoDup_snoc; [exact Hg1 | exact Hfresh].
    + subst g; simpl; eauto.
    + intros t Ht. destruct (Hp t (or_intror Ht)) as (u & y & -> & Huy).
      exists u, y; split; [reflexivity|].
      destruct (str_eqb u w) eqn:Euw.
      * apply str_eqb_eq in Euw; subst u. exfalso.
        assert (Hnone : promote rest (g ++ [(nonterminal w, [x])]) vals1 = None).
        { apply promote_absent with w; auto.
          - rewrite Hk1; tauto.
          - apply in_map_iff. exists (w, nonterminal w, y); auto. }
        congruence.
      * assert (Hne : u <> w) by (intros ->; rewrite str_eqb_refl in Euw; discriminate).
        rewrite Evals1. rewrite Evals in Huy.
        apply in_app_iff in Huy as [H|[H|H]]; apply in_app_iff; auto.
        injection H as -> _. congruence.
    + intros k Hk'. unfold keys in Hk'; rewrite map_app in Hk'; apply in_app_iff in Hk' as [H|[H|[]]].
      * destruct (Hk k H) as [->|(u & y & Huy & Hu & ->)]; [left; reflexivity|].
        right; exists u, y; repeat split; auto. intros Hu1; apply Hu, Hk1, Hu1.
      * subst k. right; exists w, x. split; [exact Hwr|]. split; [|reflexivity].
        rewrite Hk1; tauto.
    + intros i k alts H.
      destruct (Nat.lt_ge_cases i (length g)) as [Hlt|Hge].
      * rewrite nth_error_app1 in H by exact Hlt.
        destruct (Hi i k alts H) as (ts & Ea & Hok & Hf & Hr).
        exists ts. split; [exact Ea|]. split; [exact Hok|]. split; [exact Hf|].
        intros n Hn. destruct (Hr n Hn) as [Hu [(j & a & Hij & Hj)|(t & Ht & Et)]].
        -- split; [exact Hu|]. left. exists j, a. split; [exact Hij|]. apply Hnth; exact Hj.
        -- split; [exact Hu|]. destruct Ht as [<-|Ht].
           ++ left. exists (length g), [x]. split; [exact Hlt|].
              rewrite nth_error_app2 by lia. rewrite Nat.sub_diag. simpl in Et; rewrite Et.
              reflexivity.
           ++ right; eauto.
      * rewrite nth_error_app2 in H by exact Hge.
        destruct (i - length g) as [|m] eqn:Em; [|destruct m; discriminate].
        simpl in H; injection H as <- <-.
        exists (map TL x).
        split; [rewrite render_lits; reflexivity|].
        split; [intros t Ht; apply in_map_iff in Ht as (c & <- & Hc); eapply rec_lit; eauto|].
        split; [rewrite flat_lits; symmetry; apply rho_var; exact Hwr|].
        intros m Hm; apply in_map_iff in Hm as (c & E' & _); discriminate.
Qed.

Lemma loop_inv (fuel : nat) (vals : dict str) (g g' : grammar) (k : nat) :
  ginv vals g [] -> loop fuel vals g = Some (inr (g', k)) -> exists vals', ginv vals' g' [].
Proof.
  revert vals g k; induction fuel as [|f IH]; intros vals g k Hg E; [discriminate|].
  cbn [loop] in E. destruct (scan_pass vals g) as [gm nr] eqn:Es.
  pose proof (scan_pass_inv vals g gm nr Hg Es) as Hm.
  destruct nr as [|t nr].
  - injection E as <- _. eauto.
  - destruct (promote (t :: nr) gm vals) as [[g2 vals2]|] eqn:Ep; [|discriminate].
    pose proof (promote_inv _ _ _ _ _ Hm Ep) as H2.
    destruct (loop f vals2 g2) as [[e|[gf k']]|] eqn:El; try discriminate.
    injection E as <- _. eapply IH; eauto.
Qed.

Lemma expand_inv (vals : dict str) (g : grammar) :
  ginv vals g [] ->
  forall m i k alts, length g - i <= m -> nth_error g i = Some (k, alts) ->
  forall F, length g - i <= F -> exists a, alts = [a] /\ expand F g a = Some (r k).
Proof.
  intros Hg. destruct Hg as (_ & _ & Hg1 & _ & _ & _ & Hi).
  induction m as [|m IH]; intros i k alts Hm H F HF.
  - assert (i < length g) by (apply nth_error_Some; congruence). lia.
  - assert (Hil : i < length g) by (apply nth_error_Some; congruence).
    destruct F as [|F]; [lia|].
    destruct (Hi i k alts H) as (ts & -> & Hok & Hf & Hr).
    exists (render ts). split; [reflexivity|].
    cbn [expand]. rewrite tokenize_render by exact Hok. rewrite <- Hf.
    apply expand_toks_ok. intros n Hn.
    destruct (Hr n Hn) as [_ [(j & a & Hij & Hj)|(t & [] & _)]].
    assert (Hjl : j < length g) by (apply nth_error_Some; congruence).
    destruct (IH j (nt_text n) a ltac:(lia) Hj F ltac:(lia)) as (b & -> & Eb).
    exists b. split; [eapply nth_dget; eauto | exact Eb].
Qed.

Lemma extract_roundtrip (g : grammar) :
  extract input rec = inr g ->
  exists a, dget START_SYMBOL g = Some [a] /\ expand (length g) g a = Some input.
Proof.
  unfold extract. intros E.
  destruct (loop (S (length rec)) rec [(START_SYMBOL, [input])]) as [[e|[gf k]]|] eqn:El;
    try discriminate.
  injection E as ->.
  destruct (loop_inv _ _ _ _ _ ginv_init El) as (vals & Hg).
  pose proof Hg as (_ & _ & Hg1 & (a0 & g0 & Eg) & _).
  assert (H0 : nth_error g 0 = Some (START_SYMBOL, a0)) by (rewrite Eg; reflexivity).
  destruct (expand_inv vals g Hg (length g) 0 _ _ ltac:(lia) H0 (length g) ltac:(lia))
    as (a & -> & Ea).
  exists a. split; [eapply nth_dget; eauto|]. rewrite Ea, rho_start; reflexivity.
Qed.

End Extraction.

(** *** Invariants of extraction that need no assumption *)

Lemma subst_alts_length (var value : str) (alts : list str) :
  length (fst (subst_alts var value alts)) = length alts.
Proof.
  induction alts as [|a alts IH]; [reflexivity|]. simpl.
  destruct (subst_alts var value alts) as [a1 n1]; simpl in IH.
  destruct (is_sub value a); simpl; rewrite IH; reflexivity.
Qed.

Lemma subst_rules_keys (var value : str) (g : grammar) :
  keys (fst (subst_rules var value g)) = keys g.
Proof. rewrite subst_rules_map; unfold keys; simpl; rewrite map_map; reflexivity. Qed.

Lemma scan_pass_gen (P : grammar -> Prop) (vals : dict str) (g g' : grammar) (nr : list triple) :
  (forall var value g0, P g0 -> P (fst (subst_rules var value g0))) ->
  P g -> scan_pass vals g = (g', nr) -> P g'.
Proof.
  intros HP Hg. unfold scan_pass. generalize (@nil triple) as nr0. revert g Hg.
  induction vals as [|[var value] vals IH]; intros g Hg nr0 E; simpl in E.
  - injection E as <- _; exact Hg.
  - destruct (subst_rules var value g) as [g1 nr1] eqn:Es.
    apply (IH g1) with (nr0 ++ nr1); [|exact E].
    replace g1 with (fst (subst_rules var value g)) by (rewrite Es; reflexivity). auto.
Qed.

Lemma scan_pass_triples (vals : dict str) (g g' : grammar) (nr : list triple) :
  scan_pass vals g = (g', nr) ->
  forall t, In t nr -> exists u x, t = (u, nonterminal u, x) /\ In (u, x) vals.
Proof.
  unfold scan_pass.
  assert (Hgen : forall l g0 nr0, fold_left
     (fun '(g, nr) '(var, value) =>
        let '(g', nr') := subst_rules var value g in (g', nr ++ nr')) l (g0, nr0) = (g', nr) ->
     forall t, In t nr -> In t nr0 \/ exists u x, t = (u, nonterminal u, x) /\ In (u, x) l).
  { induction l as [|[var value] l IH]; simpl; intros g0 nr0 H t Ht.
    - injection H as _ <-; auto.
    - destruct (subst_rules var value g0) as [g1 nr1] eqn:E.
      destruct (IH _ _ H t Ht) as [Hin|(u & x & Hu & Hx)]; [|right; exists u, x; auto].
      apply in_app_iff in Hin as [Hin|Hin]; auto. right.
      rewrite subst_rules_map in E; injection E as _ <-.
      apply in_concat in Hin as (l1 & Hl1 & Ht1). apply in_map_iff in Hl1 as (kv & <- & _).
      apply subst_alts_triples in Ht1. exists var, value; auto. }
  intros H t Ht; destruct (Hgen vals g [] H t Ht) as [[]|]; auto.
Qed.

Lemma subst_alts_nil (var value : str) (alts alts' : list str) :
  subst_alts var value alts = (alts', []) ->
  alts' = alts /\ forall a, In a alts -> is_sub value a = false.
Proof.
  revert alts'; induction alts as [|a alts IH]; intros alts' E; simpl in E.
  - injection E as <-; split; [reflexivity | intros _ []].
  - destruct (subst_alts var value alts) as [a1 n1] eqn:Ea.
    destruct (is_sub value a) eqn:Hs; [discriminate|].
    injection E as <- ->. destruct (IH a1 eq_refl) as [-> H].
    split; [reflexivity|]. intros b [<-|Hb]; auto.
Qed.

Lemma subst_rules_nil (var value : str) (g g' : grammar) :
  subst_rules var value g = (g', []) ->
  g' = g /\ forall k alts a, In (k, alts) g -> In a alts -> is_sub value a = false.
Proof.
  revert g'; induction g as [|[key alts] g IH]; intros g' E; simpl in E.
  - injection E as <-; split; [reflexivity | intros _ _ _ []].
  - destruct (subst_alts var value alts) as [a1 n1] eqn:Ea.
    destruct (subst_rules var value g) as [g1 n2] eqn:Eg.
    injection E as <- Hn. apply app_eq_nil in Hn as [-> ->].
    destruct (subst_alts_nil var value alts a1 Ea) as [-> Ha].
    destruct (IH g1 eq_refl) as [-> Hg].
    split; [reflexivity|]. intros k al a [Hk|Hk] Hal; [injection Hk as -> ->; auto | eauto].
Qed.

Lemma scan_pass_nil (vals : dict str) (g g' : grammar) :
  scan_pass vals g = (g', []) ->
  g' = g /\ forall u x k alts a, In (u, x) vals -> In (k, alts) g -> In a alts -> is_sub x a = false.
Proof.
  unfold scan_pass. generalize (@nil triple) at 1 as nr0. revert g.
  induction vals as [|[var value] vals IH]; intros g nr0 E; simpl in E.
  - injection E as <- _; split; [reflexivity | intros _ _ _ _ _ []].
  - destruct (subst_rules var value g) as [g1 nr1] eqn:Es.
    assert (Hn : nr0 ++ nr1 = []).
    { clear -E. revert g1 E. generalize (nr0 ++ nr1) as acc.
      induction vals as [|[v x] vals IH]; intros acc g1 E; simpl in E.
      - injection E as _ ->; reflexivity.
      - destruct (subst_rules v x g1) as [g2 nr2]. apply IH in E. apply app_eq_nil in E; tauto. }
    destruct (IH g1 _ E) as [-> H].
    apply app_eq_nil in Hn as [_ ->].
    destruct (subst_rules_nil var value g g1 Es) as [-> Hg].
    split; [reflexivity|]. intros u x k alts a [Hux|Hux] Hk Ha; [injection Hux as -> ->; eauto | eauto].
Qed.

Lemma dset_nodup {V} (k : str) (v : V) (d : dict V) : NoDup (keys d) -> NoDup (keys (dset k v d)).
Proof.
  intros H. destruct (in_dec (list_eq_dec ascii_dec) k (keys d)) as [Hin|Hout].
  - rewrite keys_dset_in by exact Hin; exact H.
  - rewrite keys_dset_notin by exact Hout; apply NoDup_snoc; auto.
Qed.

Lemma keys_dset_iff {V} (k x : str) (v : V) (d : dict V) :
  In x (keys (dset k v d)) <-> In x (keys d) \/ x = k.
Proof.
  destruct (in_dec (list_eq_dec ascii_dec) k (keys d)) as [Hin|Hout].
  - rewrite keys_dset_in by exact Hin. split; [auto|]. intros [H| ->]; auto.
  - rewrite keys_dset_notin by exact Hout. rewrite in_app_iff; simpl. intuition.
Qed.

Lemma ddel_in {V} (k : str) (d d' : dict V) (p : str * V) :
  ddel k d = Some d' -> In p d -> In p d' \/ fst p = k.
Proof.
  intros H Hp. destruct (ddel_some k d d' H) as (pre & v & post & -> & -> & _).
  apply in_app_iff in Hp as [Hp|[<-|Hp]]; [left; apply in_app_iff; auto | right; reflexivity
    | left; apply in_app_iff; auto].
Qed.

Lemma ddel_sub {V} (k : str) (d d' : dict V) (p : str * V) :
  ddel k d = Some d' -> In p d' -> In p d.
Proof.
  intros H Hp. destruct (ddel_some k d d' H) as (pre & v & post & -> & -> & _).
  apply in_app_iff in Hp as [Hp|Hp]; apply in_app_iff; simpl; auto.
Qed.

(** The start rule comes first and every rule has one alternative. *)
Definition shape_ok (g : grammar) : Prop :=
  (exists a0 g0, g = (START_SYMBOL, a0) :: g0) /\ forall k a, In (k, a) g -> length a = 1.

(** The keys are distinct: the start symbol and nonterminals of recorded variables. *)
Definition keys_ok (rec : dict str) (g : grammar) : Prop :=
  NoDup (keys g) /\
  forall k, In k (keys g) -> k = START_SYMBOL \/ exists u, In u (keys rec) /\ k = nonterminal u.

(** Every recorded variable is still pending or has a rule. *)
Definition fix_ok (rec vals : dict str) (g : grammar) : Prop :=
  forall u x, In (u, x) rec -> In (u, x) vals \/ In (nonterminal u) (keys g).

Lemma subst_rules_shape (var value : str) (g : grammar) :
  shape_ok g -> shape_ok (fst (subst_rules var value g)).
Proof.
  intros [(a0 & g0 & ->) H]. rewrite subst_rules_map. cbn [fst map].
  split; [eauto|]. intros k a [E|Hin].
  - injection E as <- <-. rewrite subst_alts_length. apply (H START_SYMBOL); left; reflexivity.
  - apply in_map_iff in Hin as ([k' a'] & E & Hin). simpl in E. injection E as <- <-.
    rewrite subst_alts_length. apply (H k'); right; exact Hin.
Qed.

Lemma dset_shape (k x : str) (g : grammar) : shape_ok g -> shape_ok (dset k [x] g).
Proof.
  intros [(a0 & g0 & ->) H]. cbn [dset].
  destruct (str_eqb k START_SYMBOL) eqn:E.
  - apply str_eqb_eq in E; subst k. split; [eauto|].
    intros k a [Ek|Hin]; [injection Ek as <- <-; reflexivity | apply (H k); right; exact Hin].
  - split; [eauto|]. intros k' a [Ek|Hin]; [apply (H k'); left; exact Ek|].
    apply in_dset in Hin as [Hin|Hin]; [apply (H k'); right; exact Hin|].
    injection Hin as _ ->; reflexivity.
Qed.

Lemma promote_shape (nr : list triple) (g g' : grammar) (vals vals' : dict str) :
  shape_ok g -> promote nr g vals = Some (g', vals') -> shape_ok g'.
Proof.
  revert g vals; induction nr as [|[[v k] x] nr IH]; intros g vals Hg E; simpl in E.
  - injection E as <- _; exact Hg.
  - destruct (ddel v vals) as [vals1|]; [|discriminate].
    apply (IH (dset k [x] g) vals1); [apply dset_shape; exact Hg | exact E].
Qed.

Lemma promote_vals (nr : list triple) (g g' : grammar) (vals vals' : dict str) :
  promote nr g vals = Some (g', vals') -> forall p, In p vals' -> In p vals.
Proof.
  revert g vals; induction nr as [|[[v k] x] nr IH]; intros g vals E p Hp; simpl in E.
  - injection E as _ <-; exact Hp.
  - destruct (ddel v vals) as [vals1|] eqn:Ed; [|discriminate].
    apply (ddel_sub v vals vals1 p Ed). exact (IH _ _ E p Hp).
Qed.

Lemma promote_keys (rec : dict str) (nr : list triple) (g g' : grammar) (vals vals' : dict str) :
  keys_ok rec g ->
  (forall t, In t nr -> exists u x, t = (u, nonterminal u, x) /\ In u (keys rec)) ->
  promote nr g vals = Some (g', vals') -> keys_ok rec g'.
Proof.
  revert g vals; induction nr as [|t nr IH]; intros g vals [Hnd Hk] Ht E.
  - simpl in E; injection E as <- _; split; assumption.
  - destruct (Ht t (or_introl eq_refl)) as (u & x & -> & Hu).
    simpl in E. destruct (ddel u vals) as [vals1|]; [|discriminate].
    apply (IH (dset (nonterminal u) [x] g) vals1); [| intros t' Ht'; apply Ht; right; exact Ht' | exact E].
    split; [apply dset_nodup; exact Hnd|].
    intros k Hk'. apply keys_dset_iff in Hk' as [Hk'| ->]; [apply Hk; exact Hk'|].
    right; eauto.
Qed.

Lemma promote_fix (rec : dict str) (nr : list triple) (g g' : grammar) (vals vals' : dict str) :
  fix_ok rec vals g ->
  (forall t, In t nr -> exists u x, t = (u, nonterminal u, x)) ->
  promote nr g vals = Some (g', vals') -> fix_ok rec vals' g'.
Proof.
  revert g vals; induction nr as [|t nr IH]; intros g vals Hf Ht E.
  - simpl in E; injection E as <- <-; exact Hf.
  - destruct (Ht t (or_introl eq_refl)) as (w & y & ->).
    simpl in E. destruct (ddel w vals) as [vals1|] eqn:Ed; [|discriminate].
    apply (IH (dset (nonterminal w) [y] g) vals1); [| intros t' Ht'; apply Ht; right; exact Ht' | exact E].
    intros u x Hux. destruct (Hf u x Hux) as [Hin|Hin].
    + destruct (ddel_in w vals vals1 (u, x) Ed Hin) as [H|H]; [left; exact H|].
      simpl in H; subst u. right. apply keys_dset_iff; right; reflexivity.
    + right. apply keys_dset_iff; left; exact Hin.
Qed.

Lemma loop_shape (fuel : nat) (vals : dict str) (g g' : grammar) (n : nat) :
  shape_ok g -> loop fuel vals g = Some (inr (g', n)) -> shape_ok g'.
Proof.
  revert vals g n; induction fuel as [|f IH]; intros vals g n Hg E; [discriminate|].
  cbn [loop] in E. destruct (scan_pass vals g) as [gm nr] eqn:Es.
  pose proof (scan_pass_gen shape_ok vals g gm nr (subst_rules_shape) Hg Es) as Hm.
  destruct nr as [|t nr]; [injection E as <- _; exact Hm|].
  destruct (promote (t :: nr) gm vals) as [[g2 vals2]|] eqn:Ep; [|discriminate].
  destruct (loop f vals2 g2) as [[e|[gf k]]|] eqn:El; try discriminate.
  injection E as <- _. eapply IH; [eapply promote_shape; eauto | exact El].
Qed.

Lemma loop_keys (rec : dict str) (fuel : nat) (vals : dict str) (g g' : grammar) (n : nat) :
  keys_ok rec g -> (forall p, In p vals -> In p rec) ->
  loop fuel vals g = Some (inr (g', n)) -> keys_ok rec g'.
Proof.
  revert vals g n; induction fuel as [|f IH]; intros vals g n Hg Hv E; [discriminate|].
  cbn [loop] in E. destruct (scan_pass vals g) as [gm nr] eqn:Es.
  assert (Hkeys : keys gm = keys g).
  { apply (scan_pass_gen (fun g1 => keys g1 = keys g) vals g gm nr); [| reflexivity | exact Es].
    intros var value g0 H0; rewrite subst_rules_keys; exact H0. }
  assert (Hm : keys_ok rec gm) by (unfold keys_ok; rewrite Hkeys; exact Hg).
  destruct nr as [|t nr]; [injection E as <- _; exact Hm|].
  destruct (promote (t :: nr) gm vals) as [[g2 vals2]|] eqn:Ep; [|discriminate].
  destruct (loop f vals2 g2) as [[e|[gf k]]|] eqn:El; try discriminate.
  injection E as <- _. eapply IH; [| | exact El].
  - eapply promote_keys; [exact Hm | | exact Ep].
    intros t' Ht'. destruct (scan_pass_triples vals g gm _ Es t' Ht') as (u & x & -> & Hux).
    exists u, x; split; [reflexivity|]. apply Hv in Hux.
    exact (in_map fst _ _ Hux).
  - intros p Hp; apply Hv; exact (promote_vals _ _ _ _ _ Ep p Hp).
Qed.

Lemma loop_fix (rec : dict str) (fuel : nat) (vals : dict str) (g g' : grammar) (n : nat) :
  fix_ok rec vals g -> loop fuel vals g = Some (inr (g', n)) ->
  exists vals', fix_ok rec vals' g' /\
    forall u x k alts a, In (u, x) vals' -> In (k, alts) g' -> In a alts -> is_sub x a = false.
Proof.
  revert vals g n; induction fuel as [|f IH]; intros vals g n Hg E; [discriminate|].
  cbn [loop] in E. destruct (scan_pass vals g) as [gm nr] eqn:Es.
  destruct nr as [|t nr].
  - injection E as <- _. destruct (scan_pass_nil vals g gm Es) as [-> H]. eauto.
  - assert (Hm : fix_ok rec vals gm).
    { assert (Hkeys : keys gm = keys g).
      { apply (scan_pass_gen (fun g1 => keys g1 = keys g) vals g gm (t :: nr)); [| reflexivity | exact Es].
        intros var value g0 H0; rewrite subst_rules_keys; exact H0. }
      unfold fix_ok; rewrite Hkeys; exact Hg. }
    destruct (promote (t :: nr) gm vals) as [[g2 vals2]|] eqn:Ep; [|discriminate].
    destruct (loop f vals2 g2) as [[e|[gf k]]|] eqn:El; try discriminate.
    injection E as <- _. eapply IH; [| exact El].
    eapply promote_fix; [exact Hm | | exact Ep].
    intros t' Ht'. destruct (scan_pass_triples vals g gm _ Es t' Ht') as (u & x & -> & _). eauto.
Qed.

Lemma get_grammar_inr (function : callable) (input : str) (st st' : gstate) (g : grammar) :
  get_grammar function input st = (inr g, st') ->
  exists rec, trace_function function input st = (inr rec, st') /\ extract input rec = inr g.
Proof.
  unfold get_grammar. destruct (trace_function function input st) as [[e|rec] st1].
  - intros H; injection H as H _; discriminate.
  - intros H; injection H as H <-. eauto.
Qed.

Lemma extract_loop (input : str) (rec : dict str) (g : grammar) :
  extract input rec = inr g ->
  exists n, loop (S (length rec)) rec [(START_SYMBOL, [input])] = Some (inr (g, n)).
Proof.
  unfold extract. destruct (loop (S (length rec)) rec [(START_SYMBOL, [input])]) as [[e|[g' n]]|];
    intros H; try discriminate. injection H as ->; eauto.
Qed.

Lemma trace_function_qual (function : callable) (input : str) (st st' : gstate) (rec : dict str) :
  trace_function function input st = (inr rec, st') ->
  forall u x, In (u, x) rec -> 2 <= length x /\ is_sub x input = true.
Proof.
  intros Ht. unfold trace_function in Ht. cbv zeta in Ht.
  destruct (cr_result (function input)) as [e|o]; [discriminate|].
  injection Ht as Ht _. subst rec. rewrite !run_hook_fold.
  apply trace_fold_qual, trace_fold_qual. intros u x [].
Qed.

Lemma trace_function_hook (function : callable) (input : str) (st : gstate) :
  hook_on st = false -> trace_function function input st = trace_function function input init_state.
Proof. intros H. unfold trace_function. rewrite H. reflexivity. Qed.


(** *** Merging the grammars of several inputs *)

Lemma get_grammar_hook (function : callable) (input : str) (st : gstate) :
  hook_on st = false -> get_grammar function input st = get_grammar function input init_state.
Proof. intros H. unfold get_grammar. rewrite trace_function_hook by exact H. reflexivity. Qed.

Lemma get_grammar_inr_hook (function : callable) (input : str) (st st' : gstate) (g : grammar) :
  get_grammar function input st = (inr g, st') -> hook_on st' = false.
Proof.
  intros H. destruct (get_grammar_inr _ _ _ _ _ H) as (rec & Ht & _).
  unfold trace_function in Ht. cbv zeta in Ht.
  destruct (cr_result (function input)); [discriminate|]. injection Ht as _ <-. reflexivity.
Qed.

Lemma get_grammar_start (function : callable) (input : str) (st st' : gstate) (g : grammar) :
  get_grammar function input st = (inr g, st') ->
  NoDup (keys g) /\ exists a g0, g = (START_SYMBOL, [a]) :: g0.
Proof.
  intros H. destruct (get_grammar_inr _ _ _ _ _ H) as (rec & _ & Ex).
  destruct (extract_loop _ _ _ Ex) as (n & El).
  assert (Hs : shape_ok g).
  { eapply loop_shape; [| exact El]. split; [eauto|].
    intros k a [E|[]]; injection E as _ <-; reflexivity. }
  assert (Hk : keys_ok rec g).
  { eapply loop_keys; [| | exact El]; auto.
    split; [repeat constructor; intros []|]. intros k [<-|[]]; auto. }
  destruct Hs as [(a0 & g0 & ->) Hl]. split; [apply Hk|].
  pose proof (Hl START_SYMBOL a0 (or_introl eq_refl)) as H1.
  destruct a0 as [|a [|]]; try (simpl in H1; lia). eauto.
Qed.

Lemma merge_start (m g : grammar) (r : list str) (a : str) (g0 : grammar) :
  NoDup (keys m) -> dget START_SYMBOL m = Some r ->
  g = (START_SYMBOL, [a]) :: g0 -> NoDup (keys g) ->
  dget START_SYMBOL (merge_grammars m g) = Some (add_alt r a).
Proof.
  intros Hnd Hm -> Hg.
  assert (Hga : dget START_SYMBOL ((START_SYMBOL, [a]) :: g0) = Some [a])
    by (cbn [dget]; rewrite str_eqb_refl; reflexivity).
  destruct (merge_both _ _ _ r [a] Hnd Hg Hm Hga) as [_ H].
  unfold add_alt. destruct (H ltac:(discriminate)) as [[Hall Hv]|(p & y & s & E & Hy & _ & Hv)].
  - replace (existsb (str_eqb a) r) with true; [exact Hv|].
    symmetry; apply existsb_exists; exists a; split; [apply Hall; left; reflexivity | apply str_eqb_refl].
  - destruct p as [|q p]; cbn [app] in E.
    + injection E as Ey _. subst y.
      replace (existsb (str_eqb a) r) with false; [exact Hv|].
      symmetry; apply not_true_iff_false; intros Ex.
      apply existsb_exists in Ex as (z & Hz & Ez); apply str_eqb_eq in Ez; subst; auto.
    + injection E as _ E. destruct p; discriminate.
Qed.

Lemma merge_first (m g : grammar) (a0 : list str) (m0 : grammar) :
  m = (START_SYMBOL, a0) :: m0 -> NoDup (keys m) -> NoDup (keys g) ->
  exists a1 m1, merge_grammars m g = (START_SYMBOL, a1) :: m1.
Proof.
  intros -> Hnd Hg. pose proof (merge_keys_fold g _ Hnd Hg) as Hk.
  unfold merge_grammars. destruct (fold_left merge_rule g ((START_SYMBOL, a0) :: m0)) as [|[k a1] m1].
  - discriminate Hk.
  - cbn [keys map fst app] in Hk. injection Hk as -> _. eauto.
Qed.

Lemma merged_loop_start (function : callable) (inputs : list str) (m0 m : grammar)
    (r0 : list str) (st st' : gstate) :
  hook_on st = false -> NoDup (keys m0) -> (exists m1, m0 = (START_SYMBOL, r0) :: m1) ->
  merged_loop function inputs (Some m0) st = (inr (Some m), st') ->
  NoDup (keys m) /\ (exists r m1, m = (START_SYMBOL, r) :: m1) /\
  dget START_SYMBOL m = Some (fold_left add_alt (map (start_alt function) inputs) r0).
Proof.
  revert m0 r0 st; induction inputs as [|input inputs IH]; intros m0 r0 st Hst Hnd (m1 & Em) E.
  - simpl in E. injection E as <- _. split; [exact Hnd|]. split; [subst; eauto|].
    subst; cbn [dget]; rewrite str_eqb_refl; reflexivity.
  - cbn [merged_loop] in E.
    destruct (get_grammar function input st) as [[e|g] st1] eqn:Eg; [injection E as E _; discriminate|].
    destruct (get_grammar_start _ _ _ _ _ Eg) as (Hg & a & g0 & Eg0).
    assert (Ha : start_alt function input = a).
    { unfold start_alt. rewrite <- (get_grammar_hook _ _ st Hst), Eg, Eg0. reflexivity. }
    cbn [map fold_left]. rewrite Ha.
    destruct (merge_first _ _ _ _ Em Hnd Hg) as (r1 & m2 & Em2).
    assert (Hr : dget START_SYMBOL m0 = Some r0) by (subst; cbn [dget]; rewrite str_eqb_refl; reflexivity).
    pose proof (merge_start _ _ _ _ _ Hnd Hr Eg0 Hg) as Hs.
    rewrite Em2 in Hs. cbn [dget] in Hs. rewrite str_eqb_refl in Hs. injection Hs as Hs.
    eapply IH; [eapply get_grammar_inr_hook; exact Eg | apply merge_nodup; exact Hnd | | ].
    + rewrite Em2, Hs. eauto.
    + exact E.
Qed.

Lemma merged_loop_fail (function : callable) (inputs : list str) (mg : option grammar) (st : gstate) :
  hook_on st = false ->
  (exists e, fst (merged_loop function inputs mg st) = inl e) <->
  (exists input, In input inputs /\ exists e, fst (get_grammar function input init_state) = inl e).
Proof.
  revert mg st; induction inputs as [|i inputs IH]; intros mg st Hst.
  - simpl. split; [intros (e & E); discriminate | intros (i & [] & _)].
  - cbn [merged_loop]. rewrite (get_grammar_hook _ _ _ Hst).
    destruct (get_grammar function i init_state) as [[e|g] st1] eqn:Eg.
    + split; intros _; [|exists e; reflexivity].
      exists i; split; [left; reflexivity|]. exists e; rewrite Eg; reflexivity.
    + rewrite IH by (eapply get_grammar_inr_hook; exact Eg). split.
      * intros (i' & Hi & He); exists i'; split; [right; exact Hi | exact He].
      * intros (i' & [<-|Hi] & He).
        -- destruct He as (e & He). rewrite Eg in He; discriminate.
        -- exists i'; split; [exact Hi | exact He].
Qed.

(* ================================================================== *)
(** * Claims *)

(** ** C1: the start rule reconstructs the input *)

(** A callable whose local variable is called [start]. *)
Definition start_fn : callable :=
  fun _ => mk_run [mk_event 1 [(lit "start", PStr (lit "ab"))]] (inr POther).

(** A callable whose local variable [x] holds "ab". *)
Definition xab_fn : callable :=
  fun _ => mk_run [mk_event 1 [(lit "x", PStr (lit "ab"))]] (inr POther).

(** C1, as stated, fails: the traced variable [start] gets the nonterminal
    [<start>], and its rule overwrites the start rule, so the start rule of
    the grammar extracted from input "abc" is ["ab"]. *)
Lemma C1_counterexample :
  ~ (forall function input st g st',
       get_grammar function input st = (inr g, st') ->
       exists a F, dget START_SYMBOL g = Some [a] /\ expand F g a = Some input).
Proof.
  intros H.
  destruct (H start_fn (lit "abc") init_state [(START_SYMBOL, [lit "ab"])]
              (mk_gstate [(lit "start", lit "ab")] (Some (lit "abc")) false))
    as (a & F & Ha & Ef); [vm_compute; reflexivity|].
  vm_compute in Ha. injection Ha as <-.
  destruct F as [|F]; vm_compute in Ef; discriminate.
Qed.

(** C1 (amended): when the input has no angle brackets, the recorded
    variable names have no angle brackets or spaces, are distinct after
    case-folding and none case-folds to "start", and no recorded value
    occurs inside a case-folded recorded name, the start rule of the
    grammar returned by [get_grammar] has a single alternative whose full
    expansion is the input. *)
Theorem C1_start_rule_round_trip (function : callable) (input : str) (st st1 st' : gstate)
    (rec : dict str) (g : grammar) :
  trace_function function input st = (inr rec, st1) ->
  (forall c, In c input -> lit_ok c) ->
  NoDup (map (fun p => lower (fst p)) rec) ->
  (forall u, In u (keys rec) -> lower u <> lit "start" /\ name_ok u) ->
  (forall u x w, In (u, x) rec -> In w (keys rec) -> is_sub x (lower w) = false) ->
  get_grammar function input st = (inr g, st') ->
  exists a, dget START_SYMBOL g = Some [a] /\ expand (length g) g a = Some input.
Proof.
  intros Ht Hin Hlow Hnames Hsub Hg.
  assert (Hrec : forall u x, In (u, x) rec -> 2 <= length x /\ is_sub x input = true).
  { unfold trace_function in Ht. cbv zeta in Ht.
    destruct (cr_result (function input)) as [e|o]; [discriminate|].
    injection Ht as Ht _. subst rec. rewrite !run_hook_fold.
    apply trace_fold_qual, trace_fold_qual. intros u x []. }
  unfold get_grammar in Hg; rewrite Ht in Hg. injection Hg as Hg _.
  eapply extract_roundtrip; eauto.
  - intros u Hu; apply Hnames; exact Hu.
  - intros u Hu; apply Hnames; exact Hu.
Qed.

Definition c1_rec : dict str := [(lit "x", lit "ab")].

Definition c1_grammar : grammar :=
  [(START_SYMBOL, [lit "<x>c"]); (lit "<x>", [lit "ab"])].

Lemma C1_start_rule_round_trip_witness :
  exists a, dget START_SYMBOL c1_grammar = Some [a] /\
            expand (length c1_grammar) c1_grammar a = Some (lit "abc").
Proof.
  apply (C1_start_rule_round_trip xab_fn (lit "abc") init_state
           (mk_gstate c1_rec (Some (lit "abc")) false)
           (mk_gstate c1_rec (Some (lit "abc")) false) c1_rec c1_grammar).
  - vm_compute; reflexivity.
  - intros c Hc; vm_compute in Hc.
    repeat (destruct Hc as [<-|Hc]); [split; discriminate .. | contradiction].
  - constructor; [intros [] | constructor].
  - intros u [<-|[]]. split; [intros E; vm_compute in E; discriminate|].
    intros c [<-|[]]; repeat split; discriminate.
  - intros u x w [E|[]] [<-|[]]. injection E as <- <-. vm_compute; reflexivity.
  - vm_compute; reflexivity.
Defined.

(** ** C2: one substitution step in a pass *)

(** C2 (as stated): a substitution replaces only the first occurrence of
    the value in an alternative and leaves later occurrences literal.
    False: [repl.replace(value, alt_key)] replaces every occurrence, so on
    the alternative ["abab"] with the value ["ab"] of [x] the result is
    ["<x><x>"], not ["<x>ab"]. *)
Lemma C2_counterexample :
  ~ (forall var value a b, first_at value a (value ++ b) ->
       fst (subst_alts var value [a ++ value ++ b]) = [a ++ nonterminal var ++ b]).
Proof.
  intros H. specialize (H (lit "x") (lit "ab") [] (lit "ab")).
  assert (Hf : first_at (lit "ab") [] (lit "ab" ++ lit "ab")) by (intros i Hi; simpl in Hi; lia).
  specialize (H Hf). vm_compute in H. discriminate H.
Qed.

(** C2 (amended): when the value occurs in an alternative, the
    substitution replaces its first occurrence by the nonterminal
    [<var.lower()>] and goes on the same way on the rest of the
    alternative (Python's [str.replace]), so every later non-overlapping
    occurrence is replaced too; text with no occurrence stays as it is.
    One pending rule is recorded for the alternative. *)
Theorem C2_every_occurrence_replaced (var value a b : str) :
  value <> [] -> first_at value a (value ++ b) ->
  subst_alts var value [a ++ value ++ b] =
    ([a ++ nonterminal var ++ py_replace value (nonterminal var) b],
     [(var, nonterminal var, value)]) /\
  (is_sub value b = false -> py_replace value (nonterminal var) b = b).
Proof.
  intros Hne Hfirst. split.
  - simpl. rewrite (is_sub_app_r _ a _ (is_sub_prefix _ _ (is_prefix_app value b))).
    rewrite py_replace_first; auto.
  - apply py_replace_none; auto.
Qed.

Lemma C2_every_occurrence_replaced_witness :
  (lit "ab" <> [] /\ first_at (lit "ab") (lit "c") (lit "ab" ++ lit "dab")) /\
  subst_alts (lit "x") (lit "ab") [lit "c" ++ lit "ab" ++ lit "dab"] =
    ([lit "c" ++ nonterminal (lit "x") ++ py_replace (lit "ab") (nonterminal (lit "x")) (lit "dab")],
     [(lit "x", nonterminal (lit "x"), lit "ab")]) /\
  (is_sub (lit "ab") (lit "dab") = false ->
     py_replace (lit "ab") (nonterminal (lit "x")) (lit "dab") = lit "dab").
Proof.
  assert (H1 : lit "ab" <> []) by discriminate.
  assert (H2 : first_at (lit "ab") (lit "c") (lit "ab" ++ lit "dab")).
  { intros [|i] Hi; [reflexivity | simpl in Hi; lia]. }
  split; [split; assumption|].
  apply (C2_every_occurrence_replaced (lit "x") (lit "ab") (lit "c") (lit "dab") H1 H2).
Defined.

(** ** C5: the trace hook on the exception path *)

(** C5: when the traced callable raises, [trace_function] propagates the
    exception with [traceit] still installed: [sys.settrace(None)] follows
    the call with no [try]/[finally], so it is skipped. *)
Theorem C5_hook_left_installed (function : callable) (input : str) (st : gstate) (e : exn) :
  cr_result (function input) = inl e ->
  fst (trace_function function input st) = inl e /\
  hook_on (snd (trace_function function input st)) = true.
Proof. intros H; unfold trace_function; rewrite H; simpl; auto. Qed.

(** A callable that always raises, e.g. [int] on a non-numeric string. *)
Definition raising_fn : callable := fun _ => mk_run [] (inl (Raised 0)).

Lemma C5_hook_left_installed_witness :
  cr_result (raising_fn (lit "ab")) = inl (Raised 0) /\
  fst (trace_function raising_fn (lit "ab") init_state) = inl (Raised 0) /\
  hook_on (snd (trace_function raising_fn (lit "ab") init_state)) = true.
Proof.
  split; [reflexivity|].
  apply (C5_hook_left_installed raising_fn (lit "ab") init_state (Raised 0)); reflexivity.
Defined.

(** ** C8: re-extraction *)

(** A callable binding its local [x] to ["ab"]. *)
Definition x_fn : callable := fun _ => mk_run [mk_event 1 [(lit "x", PStr (lit "ab"))]] (inr POther).

(** C8: two successive extractions from the same deterministic callable
    and input differ when the first one starts with the trace hook left
    installed by an earlier raising call (the defect of C5): the hook then
    sees [trace_function]'s own local [input], so the first grammar is
    [<start> -> <input>, <input> -> <x>c, <x> -> ab] and the second one
    [<start> -> <x>c, <x> -> ab]. *)
Theorem C8_successive_extractions_differ :
  let st0 := snd (get_grammar raising_fn (lit "ab") init_state) in
  let '(r1, st1) := get_grammar x_fn (lit "abc") st0 in
  let '(r2, _) := get_grammar x_fn (lit "abc") st1 in
  r1 = inr [(START_SYMBOL, [lit "<input>"]); (lit "<input>", [lit "<x>c"]); (lit "<x>", [lit "ab"])] /\
  r2 = inr [(START_SYMBOL, [lit "<x>c"]); (lit "<x>", [lit "ab"])] /\
  r1 <> r2.
Proof. vm_compute. split; [reflexivity | split; [reflexivity | discriminate]]. Qed.

(** ** C9: a variable substituted twice in one pass *)

(** C9: if the scan of a pass records two pending rules for the same
    variable (its value occurred in two alternatives), the end of the pass
    deletes that variable twice from the trace record and the loop raises
    KeyError. *)
Theorem C9_duplicate_delete_raises (fuel : nat) (values : dict str) (g g' : grammar)
  (nr : list triple) (var : str) :
  NoDup (keys values) ->
  scan_pass values g = (g', nr) ->
  (exists pre mid post t1 t2, nr = pre ++ t1 :: mid ++ t2 :: post /\
     triple_var t1 = var /\ triple_var t2 = var) ->
  loop (S fuel) values g = Some (inl KeyError).
Proof.
  intros Hnd Hscan Hdup. simpl. rewrite Hscan.
  rewrite (promote_dup var nr g' values Hnd Hdup).
  destruct Hdup as (pre & mid & post & t1 & t2 & -> & _ & _).
  destruct pre; reflexivity.
Qed.

(** The second pass of ["abcxbcd"] with [p = "abc"], [q = "bcd"],
    [r = "bc"]: [r] occurs in the rules of [<p>] and [<q>]. *)
Definition c9_values : dict str := [(lit "r", lit "bc")].
Definition c9_grammar : grammar :=
  [(START_SYMBOL, [lit "<p>x<q>"]); (lit "<p>", [lit "abc"]); (lit "<q>", [lit "bcd"])].

Lemma C9_duplicate_delete_raises_witness :
  NoDup (keys c9_values) /\
  scan_pass c9_values c9_grammar =
    ([(START_SYMBOL, [lit "<p>x<q>"]); (lit "<p>", [lit "a<r>"]); (lit "<q>", [lit "<r>d"])],
     [(lit "r", lit "<r>", lit "bc"); (lit "r", lit "<r>", lit "bc")]) /\
  loop 1 c9_values c9_grammar = Some (inl KeyError).
Proof.
  assert (H1 : NoDup (keys c9_values)) by (repeat constructor; simpl; tauto).
  assert (H2 : scan_pass c9_values c9_grammar =
    ([(START_SYMBOL, [lit "<p>x<q>"]); (lit "<p>", [lit "a<r>"]); (lit "<q>", [lit "<r>d"])],
     [(lit "r", lit "<r>", lit "bc"); (lit "r", lit "<r>", lit "bc")])) by (vm_compute; reflexivity).
  split; [exact H1|]. split; [exact H2|].
  apply (C9_duplicate_delete_raises 0 c9_values c9_grammar _ _ (lit "r") H1 H2).
  exists [], [], [], (lit "r", lit "<r>", lit "bc"), (lit "r", lit "<r>", lit "bc").
  split; [reflexivity | split; reflexivity].
Defined.

(** ** C3: merging two grammars *)

(** C3 (as stated): every alternative of [g1] or [g2] for a key is in the
    merged rule, and the merged rule has no duplicate.  False on both
    counts: [{<a>: [x]}] merged with [{<a>: [y, z]}] gives [{<a>: [x, z]}]
    ([repl1] is read once per key, so each extension overwrites the
    previous one and [y] is lost), and [{<a>: [x, x]}] merged with
    [{<a>: [x]}] keeps the duplicate of [g1]. *)
Lemma C3_counterexample :
  ~ (forall g1 g2 k, NoDup (keys g1) -> NoDup (keys g2) ->
       forall x, In x (alts_of k g1) \/ In x (alts_of k g2) ->
       In x (alts_of k (merge_grammars g1 g2))) /\
  ~ (forall g1 g2 k, NoDup (keys g1) -> NoDup (keys g2) ->
       NoDup (alts_of k (merge_grammars g1 g2))).
Proof.
  split.
  - intros H.
    specialize (H [(lit "<a>", [lit "x"])] [(lit "<a>", [lit "y"; lit "z"])] (lit "<a>")).
    assert (Hn : NoDup (keys [(lit "<a>", [lit "y"; lit "z"])])) by (repeat constructor; simpl; tauto).
    specialize (H ltac:(repeat constructor; simpl; tauto) Hn (lit "y") ltac:(right; simpl; auto)).
    vm_compute in H. intuition discriminate.
  - intros H.
    specialize (H [(lit "<a>", [lit "x"; lit "x"])] [(lit "<a>", [lit "x"])] (lit "<a>")).
    specialize (H ltac:(repeat constructor; simpl; tauto) ltac:(repeat constructor; simpl; tauto)).
    vm_compute in H. inversion H as [|? ? Hx]; subst. apply Hx; left; reflexivity.
Qed.

(** C3 (amended): for every key, a rule of [g2] for a key [g1] lacks is
    added unchanged; a key of [g1] that [g2] lacks keeps its rule; when
    both have the key and [g2]'s rule is non-empty, [g1]'s rule stays, in
    order, at the front of the merged rule, and each alternative after it
    comes from [g2]'s rule, is not in [g1]'s rule and occurs once, so the
    merged rule is duplicate-free when [g1]'s rule is. *)
Theorem C3_merge_keeps_and_dedups (g1 g2 : grammar) (k : str) :
  NoDup (keys g1) -> NoDup (keys g2) ->
  (dget k g2 = None -> dget k (merge_grammars g1 g2) = dget k g1) /\
  (dget k g1 = None -> dget k (merge_grammars g1 g2) = dget k g2) /\
  (forall r1 r2, dget k g1 = Some r1 -> dget k g2 = Some r2 -> r2 <> [] ->
     exists extra, dget k (merge_grammars g1 g2) = Some (r1 ++ extra) /\
       (forall x, In x extra -> In x r2 /\ ~ In x r1) /\ NoDup extra /\
       (NoDup r1 -> NoDup (r1 ++ extra))).
Proof.
  intros Hnd1 Hnd2. unfold merge_grammars.
  destruct (dget k g2) as [r2|] eqn:E2.
  - destruct (dget_split k r2 g2 E2) as (pre & post & Hg2 & Hpre).
    assert (Hpost : ~ In k (keys post)).
    { rewrite Hg2 in Hnd2; unfold keys in Hnd2; rewrite map_app in Hnd2; simpl in Hnd2.
      apply NoDup_remove_2 in Hnd2; rewrite in_app_iff in Hnd2; tauto. }
    rewrite Hg2, fold_left_app; cbn [fold_left].
    destruct (merge_fold_other k pre g1 Hnd1 Hpre) as (P1 & P2 & P3).
    destruct (merge_rule_spec (fold_left merge_rule pre g1) k r2 P1) as (R1 & R2 & R3 & R4 & R5).
    destruct (merge_fold_other k post _ R1 Hpost) as (Q1 & Q2 & Q3).
    rewrite Q2. split; [discriminate|]. split.
    + intros E1. apply R4. rewrite P3. apply dget_in; exact E1.
    + intros r1 r2' E1 E2' Hne. injection E2' as <-.
      assert (Hin : In k (keys (fold_left merge_rule pre g1))).
      { rewrite P3. destruct (dget_split k r1 g1 E1) as (a & b & -> & _).
        unfold keys; rewrite map_app, in_app_iff; right; left; reflexivity. }
      assert (Ha : alts_of k (fold_left merge_rule pre g1) = r1) by (apply alts_of_some; rewrite P2; auto).
      destruct (R5 Hin Hne) as [H|(y & Hy & Hy1 & H)].
      * exists []. rewrite app_nil_r, H, P2. split; [exact E1|].
        split; [intros x []|]. split; [constructor|]. intros Hr1; exact Hr1.
      * rewrite Ha in Hy1, H. exists [y]. split; [exact H|].
        split; [intros x [<-|[]]; auto|]. split; [repeat constructor; auto|].
        intros Hr1. apply NoDup_app; auto; [repeat constructor; auto|].
        intros x Hx [<-|[]]; auto.
  - destruct (merge_fold_other k g2 g1 Hnd1 (dget_in k g2 E2)) as (_ & P2 & _).
    rewrite P2. repeat split; auto; intros; discriminate.
Qed.

Lemma C3_merge_keeps_and_dedups_witness :
  (NoDup (keys [(lit "<a>", [lit "x"])]) /\
   NoDup (keys [(lit "<a>", [lit "y"; lit "z"]); (lit "<b>", [lit "w"])])) /\
  merge_grammars [(lit "<a>", [lit "x"])] [(lit "<a>", [lit "y"; lit "z"]); (lit "<b>", [lit "w"])] =
    [(lit "<a>", [lit "x"; lit "z"]); (lit "<b>", [lit "w"])] /\
  ((dget (lit "<a>") [(lit "<a>", [lit "y"; lit "z"]); (lit "<b>", [lit "w"])] = None ->
    dget (lit "<a>") (merge_grammars [(lit "<a>", [lit "x"])]
                        [(lit "<a>", [lit "y"; lit "z"]); (lit "<b>", [lit "w"])]) =
    dget (lit "<a>") [(lit "<a>", [lit "x"])]) /\
   (dget (lit "<a>") [(lit "<a>", [lit "x"])] = None ->
    dget (lit "<a>") (merge_grammars [(lit "<a>", [lit "x"])]
                        [(lit "<a>", [lit "y"; lit "z"]); (lit "<b>", [lit "w"])]) =
    dget (lit "<a>") [(lit "<a>", [lit "y"; lit "z"]); (lit "<b>", [lit "w"])]) /\
   (forall r1 r2, dget (lit "<a>") [(lit "<a>", [lit "x"])] = Some r1 ->
      dget (lit "<a>") [(lit "<a>", [lit "y"; lit "z"]); (lit "<b>", [lit "w"])] = Some r2 ->
      r2 <> [] ->
      exists extra, dget (lit "<a>") (merge_grammars [(lit "<a>", [lit "x"])]
                        [(lit "<a>", [lit "y"; lit "z"]); (lit "<b>", [lit "w"])]) = Some (r1 ++ extra) /\
        (forall x, In x extra -> In x r2 /\ ~ In x r1) /\ NoDup extra /\
        (NoDup r1 -> NoDup (r1 ++ extra)))).
Proof.
  assert (H1 : NoDup (keys [(lit "<a>", [lit "x"])])) by (repeat constructor; simpl; tauto).
  assert (H2 : NoDup (keys [(lit "<a>", [lit "y"; lit "z"]); (lit "<b>", [lit "w"])]))
    by (repeat constructor; simpl; intuition discriminate).
  split; [split; assumption|]. split; [vm_compute; reflexivity|].
  exact (C3_merge_keeps_and_dedups _ _ (lit "<a>") H1 H2).
Defined.

(** ** C4: the tracer's filter *)

(** C4: for a binding [var = v] among the locals of the frame the hook is
    called with, [traceit] stores [v] under [var] when [v] is a [str] of
    length at least 2 occurring in the input, and otherwise leaves the
    entry of [var] as it was (no error: [traceit] is total); in
    particular a string of length 1 is never stored. *)
Theorem C4_traceit_filter (input : str) (ev : event) (vals : dict str) (var : str) (v : pyval) :
  NoDup (map fst (ev_locals ev)) -> In (var, v) (ev_locals ev) ->
  (forall s, v = PStr s -> 2 <= length s -> is_sub s input = true ->
     dget var (traceit input ev vals) = Some s) /\
  ((forall s, v = PStr s -> length s < 2 \/ is_sub s input = false) ->
     dget var (traceit input ev vals) = dget var vals) /\
  (forall s, v = PStr s -> length s = 1 -> dget var (traceit input ev vals) = dget var vals).
Proof.
  intros Hnd Hin.
  apply in_split in Hin as (pre & post & Hl).
  assert (Hpre : ~ In var (map fst pre) /\ ~ In var (map fst post)).
  { rewrite Hl, map_app in Hnd; simpl in Hnd. apply NoDup_remove_2 in Hnd.
    rewrite in_app_iff in Hnd; tauto. }
  assert (Key : dget var (traceit input ev vals) =
                dget var (trace_step input (fold_left (trace_step input) pre vals) (var, v))).
  { rewrite traceit_fold, Hl, fold_left_app; simpl. apply trace_fold_other; tauto. }
  assert (Q : forall s, v = PStr s -> (2 <= length s /\ is_sub s input = true) ->
                dget var (traceit input ev vals) = Some s).
  { intros s -> [H1 H2]. rewrite Key, trace_step_get; cbn [fst snd qualifies].
    rewrite str_eqb_refl, H2. apply Nat.leb_le in H1; rewrite H1; reflexivity. }
  assert (N : (forall s, v = PStr s -> length s < 2 \/ is_sub s input = false) ->
                dget var (traceit input ev vals) = dget var vals).
  { intros Hq. rewrite Key, trace_step_get; cbn [fst snd].
    rewrite (trace_fold_other input var pre vals) by tauto.
    destruct v as [s|]; cbn [qualifies]; rewrite ?str_eqb_refl, ?andb_false_r; cbn [andb]; auto.
    destruct (Hq s eq_refl) as [H|H].
    - apply Nat.leb_gt in H; rewrite H; reflexivity.
    - rewrite H, andb_false_r; reflexivity. }
  split; [intros s Hs H1 H2; apply Q; auto|]. split; [exact N|].
  intros s -> H1. apply N. intros s' Hs'; injection Hs' as <-; left; lia.
Qed.

Lemma C4_traceit_filter_witness :
  let ev := mk_event 7 [(lit "a", PStr (lit "b")); (lit "u", PStr (lit "ab")); (lit "n", POther)] in
  (NoDup (map fst (ev_locals ev)) /\ In (lit "u", PStr (lit "ab")) (ev_locals ev)) /\
  ((forall s, PStr (lit "ab") = PStr s -> 2 <= length s -> is_sub s (lit "xaby") = true ->
     dget (lit "u") (traceit (lit "xaby") ev []) = Some s) /\
   ((forall s, PStr (lit "ab") = PStr s -> length s < 2 \/ is_sub s (lit "xaby") = false) ->
     dget (lit "u") (traceit (lit "xaby") ev []) = dget (lit "u") []) /\
   (forall s, PStr (lit "ab") = PStr s -> length s = 1 ->
     dget (lit "u") (traceit (lit "xaby") ev []) = dget (lit "u") [])).
Proof.
  intros ev.
  assert (H1 : NoDup (map fst (ev_locals ev))) by (vm_compute; repeat constructor; simpl; intuition discriminate).
  assert (H2 : In (lit "u", PStr (lit "ab")) (ev_locals ev)) by (simpl; auto).
  split; [split; assumption|].
  exact (C4_traceit_filter (lit "xaby") ev [] (lit "u") (PStr (lit "ab")) H1 H2).
Defined.

(** ** C7: last write wins *)

(** C7: the trace record returned by [trace_function] maps every name to
    the most recently observed qualifying value bound to that name,
    whatever frames the hook calls came from (the frame is not used). *)
Theorem C7_last_write_wins (function : callable) (input : str) (st st' : gstate)
  (rec : dict str) :
  trace_function function input st = (inr rec, st') ->
  forall var, dget var rec =
    last_qualifying input var (concat (map ev_locals (hook_events function input st))).
Proof.
  unfold trace_function, hook_events.
  destruct (cr_result (function input)) as [e|o]; intros H; [discriminate|].
  injection H as <- _. intros var.
  unfold run_hook. rewrite <- fold_left_app.
  change (fold_left (fun acc ev => traceit input ev acc)) with (run_hook input).
  rewrite run_hook_fold, trace_fold_last, <- app_assoc.
  destruct (last_qualifying _ _ _); reflexivity.
Qed.

(** The same name [v] bound to ["ab"] in frame 1 and then to ["bc"] in
    frame 2. *)
Definition shadow_fn : callable := fun _ =>
  mk_run [mk_event 1 [(lit "v", PStr (lit "ab"))]; mk_event 2 [(lit "v", PStr (lit "bc"))];
          mk_event 2 [(lit "v", PStr (lit "z"))]] (inr POther).

Lemma C7_last_write_wins_witness :
  trace_function shadow_fn (lit "abc") init_state =
    (inr [(lit "v", lit "bc")], mk_gstate [(lit "v", lit "bc")] (Some (lit "abc")) false) /\
  dget (lit "v") [(lit "v", lit "bc")] =
    last_qualifying (lit "abc") (lit "v") (concat (map ev_locals (hook_events shadow_fn (lit "abc") init_state))).
Proof.
  assert (H : trace_function shadow_fn (lit "abc") init_state =
    (inr [(lit "v", lit "bc")], mk_gstate [(lit "v", lit "bc")] (Some (lit "abc")) false))
    by (vm_compute; reflexivity).
  split; [exact H|]. exact (C7_last_write_wins shadow_fn (lit "abc") init_state _ _ H (lit "v")).
Defined.

(** ** C6: termination of extraction *)

(** C6: with a trace record of [k] variables, the [while True] loop of
    [get_grammar] stops (it never needs more than [k + 1] passes), and at
    most [k] of its passes make a substitution: each such pass deletes
    its substituted variables from the record. *)
Theorem C6_substitution_passes_bounded (values : dict str) (g : grammar) (fuel : nat) :
  length values < fuel ->
  loop fuel values g <> None /\
  (forall g' n, loop fuel values g = Some (inr (g', n)) -> n <= length values).
Proof.
  revert values g; induction fuel as [|fuel IH]; intros values g Hf; [lia|].
  cbn [loop]. destruct (scan_pass values g) as [g' nr].
  destruct nr as [|t nr]; [split; [discriminate | intros ? ? H; injection H as _ Hn; subst; lia]|].
  destruct (promote (t :: nr) g' values) as [[g'' values']|] eqn:Ep;
    [|split; [discriminate | intros ? ? H; discriminate]].
  apply promote_length in Ep; simpl in Ep.
  destruct (IH values' g'' ltac:(lia)) as [H1 H2].
  destruct (loop fuel values' g'') as [[e|[gf k]]|] eqn:El; [| |contradiction].
  - split; [discriminate | intros ? ? H; discriminate].
  - split; [discriminate|]. intros ? ? H; injection H as _ Hn; subst.
    specialize (H2 gf k eq_refl); lia.
Qed.

Lemma C6_substitution_passes_bounded_witness :
  length [(lit "x", lit "ab")] < 2 /\
  loop 2 [(lit "x", lit "ab")] [(START_SYMBOL, [lit "abab"])] =
    Some (inr ([(START_SYMBOL, [lit "<x><x>"]); (lit "<x>", [lit "ab"])], 1)) /\
  (loop 2 [(lit "x", lit "ab")] [(START_SYMBOL, [lit "abab"])] <> None /\
   (forall g' n, loop 2 [(lit "x", lit "ab")] [(START_SYMBOL, [lit "abab"])] = Some (inr (g', n)) ->
      n <= length [(lit "x", lit "ab")])).
Proof.
  assert (H : length [(lit "x", lit "ab")] < 2) by (simpl; lia).
  split; [exact H|]. split; [vm_compute; reflexivity|].
  exact (C6_substitution_passes_bounded _ [(START_SYMBOL, [lit "abab"])] 2 H).
Defined.

(** ** C10: [get_merged_grammar] on zero and one input *)

(** C10: on no input [get_merged_grammar] returns [None] (and touches
    nothing); on one input it returns what [get_grammar] returns for it,
    with no merge. *)
Theorem C10_merged_empty_and_single (function : callable) (st : gstate) :
  get_merged_grammar function [] st = (inr None, st) /\
  forall input,
    get_merged_grammar function [input] st =
      let '(r, st') := get_grammar function input st in
      match r with
      | inl e => (inl e, st')
      | inr g => (inr (Some g), st')
      end.
Proof.
  split; [reflexivity|]. intros input; unfold get_merged_grammar; simpl.
  destruct (get_grammar function input st) as [[e|g] st']; reflexivity.
Qed.

(* ================================================================== *)
(** * Further properties of the code *)

(** ** Merging two grammars *)

Definition x_g1 : grammar := [(lit "<a>", [lit "x"]); (lit "<b>", [lit "y"])].
Definition x_g2 : grammar := [(lit "<c>", [lit "z"]); (lit "<a>", [lit "y"; lit "x"; lit "z"])].
Definition x_g2_empty : grammar := [(lit "<a>", [])].

(** X1: when both grammars have a rule for [k] and [g2]'s rule is
    non-empty, the merged rule is [g1]'s rule if all of [g2]'s alternatives
    are in it, and otherwise [g1]'s rule followed by exactly one
    alternative: the last alternative of [g2]'s rule that is not in [g1]'s
    rule (earlier new alternatives are lost). *)
Theorem X1_merge_adds_last_new_alt (g1 g2 : grammar) (k : str) (r1 r2 : list str) :
  NoDup (keys g1) -> NoDup (keys g2) -> dget k g1 = Some r1 -> dget k g2 = Some r2 -> r2 <> [] ->
  ((forall z, In z r2 -> In z r1) /\ dget k (merge_grammars g1 g2) = Some r1) \/
  (exists p y s, r2 = p ++ y :: s /\ ~ In y r1 /\ (forall z, In z s -> In z r1) /\
     dget k (merge_grammars g1 g2) = Some (r1 ++ [y])).
Proof.
  intros H1 H2 H3 H4 H5. exact (proj2 (merge_both g1 g2 k r1 r2 H1 H2 H3 H4) H5).
Qed.

Lemma X1_merge_adds_last_new_alt_witness :
  dget (lit "<a>") (merge_grammars x_g1 x_g2) = Some [lit "x"; lit "z"] /\
  (((forall z, In z [lit "y"; lit "x"; lit "z"] -> In z [lit "x"]) /\
      dget (lit "<a>") (merge_grammars x_g1 x_g2) = Some [lit "x"]) \/
   (exists p y s, [lit "y"; lit "x"; lit "z"] = p ++ y :: s /\ ~ In y [lit "x"] /\
      (forall z, In z s -> In z [lit "x"]) /\
      dget (lit "<a>") (merge_grammars x_g1 x_g2) = Some ([lit "x"] ++ [y]))).
Proof.
  split; [vm_compute; reflexivity|].
  apply (X1_merge_adds_last_new_alt x_g1 x_g2 (lit "<a>") [lit "x"] [lit "y"; lit "x"; lit "z"]).
  - vm_compute. constructor; [intros [H|[]]; discriminate H | constructor; [intros [] | constructor]].
  - vm_compute. constructor; [intros [H|[]]; discriminate H | constructor; [intros [] | constructor]].
  - vm_compute; reflexivity.
  - vm_compute; reflexivity.
  - discriminate.
Defined.

(** X2: when both grammars have a rule for [k] and [g2]'s rule is empty,
    the merged rule for [k] is empty: [g1]'s alternatives are dropped. *)
Theorem X2_merge_empty_rule_erases (g1 g2 : grammar) (k : str) (r1 : list str) :
  NoDup (keys g1) -> NoDup (keys g2) -> dget k g1 = Some r1 -> dget k g2 = Some [] ->
  dget k (merge_grammars g1 g2) = Some [].
Proof.
  intros H1 H2 H3 H4. exact (proj1 (merge_both g1 g2 k r1 [] H1 H2 H3 H4) eq_refl).
Qed.

Lemma X2_merge_empty_rule_erases_witness :
  dget (lit "<a>") x_g1 = Some [lit "x"] /\ dget (lit "<a>") (merge_grammars x_g1 x_g2_empty) = Some [].
Proof.
  split; [vm_compute; reflexivity|].
  apply (X2_merge_empty_rule_erases x_g1 x_g2_empty (lit "<a>") [lit "x"]).
  - vm_compute. constructor; [intros [H|[]]; discriminate H | constructor; [intros [] | constructor]].
  - vm_compute. constructor; [intros [] | constructor].
  - vm_compute; reflexivity.
  - vm_compute; reflexivity.
Defined.

(** X3: the keys of the merged grammar are duplicate-free and come in the
    order of [g1]'s keys followed by the keys of [g2] that [g1] lacks, in
    [g2]'s order. *)
Theorem X3_merge_key_order (g1 g2 : grammar) :
  NoDup (keys g1) -> NoDup (keys g2) ->
  NoDup (keys (merge_grammars g1 g2)) /\
  keys (merge_grammars g1 g2) =
    keys g1 ++ filter (fun k => negb (existsb (str_eqb k) (keys g1))) (keys g2).
Proof.
  intros H1 H2. split; [apply merge_nodup; exact H1|].
  unfold merge_grammars. apply merge_keys_fold; assumption.
Qed.

Lemma X3_merge_key_order_witness :
  keys (merge_grammars x_g1 x_g2) = [lit "<a>"; lit "<b>"; lit "<c>"] /\
  NoDup (keys (merge_grammars x_g1 x_g2)) /\
  keys (merge_grammars x_g1 x_g2) =
    keys x_g1 ++ filter (fun k => negb (existsb (str_eqb k) (keys x_g1))) (keys x_g2).
Proof.
  split; [vm_compute; reflexivity|].
  apply X3_merge_key_order.
  - vm_compute. constructor; [intros [H|[]]; discriminate H | constructor; [intros [] | constructor]].
  - vm_compute. constructor; [intros [H|[]]; discriminate H | constructor; [intros [] | constructor]].
Defined.

(** ** The grammar of one input *)

Definition x_state : gstate := mk_gstate c1_rec (Some (lit "abc")) false.

(** X4: a grammar returned by [get_grammar] has the start rule as its
    first rule, and every rule has exactly one alternative. *)
Theorem X4_get_grammar_shape (function : callable) (input : str) (st st' : gstate) (g : grammar) :
  get_grammar function input st = (inr g, st') ->
  (exists a0 g0, g = (START_SYMBOL, a0) :: g0) /\ forall k a, In (k, a) g -> length a = 1.
Proof.
  intros H. destruct (get_grammar_inr _ _ _ _ _ H) as (rec & _ & Ex).
  destruct (extract_loop _ _ _ Ex) as (n & El).
  eapply loop_shape; [| exact El]. split; [eauto|].
  intros k a [E|[]]; injection E as _ <-; reflexivity.
Qed.

Lemma X4_get_grammar_shape_witness :
  get_grammar xab_fn (lit "abc") init_state = (inr c1_grammar, x_state) /\
  (exists a0 g0, c1_grammar = (START_SYMBOL, a0) :: g0) /\
  forall k a, In (k, a) c1_grammar -> length a = 1.
Proof.
  assert (H : get_grammar xab_fn (lit "abc") init_state = (inr c1_grammar, x_state))
    by (vm_compute; reflexivity).
  split; [exact H | exact (X4_get_grammar_shape _ _ _ _ _ H)].
Defined.

(** X5: the keys of a grammar returned by [get_grammar] are distinct, each
    is the start symbol or the nonterminal of a variable of the trace
    record, and so the grammar has at most one rule more than the record
    has variables. *)
Theorem X5_get_grammar_keys (function : callable) (input : str) (st st1 st' : gstate)
    (rec : dict str) (g : grammar) :
  get_grammar function input st = (inr g, st') ->
  trace_function function input st = (inr rec, st1) ->
  NoDup (keys g) /\
  (forall k, In k (keys g) -> k = START_SYMBOL \/ exists u, In u (keys rec) /\ k = nonterminal u) /\
  length g <= S (length rec).
Proof.
  intros Hg Ht. destruct (get_grammar_inr _ _ _ _ _ Hg) as (rec0 & Ht0 & Ex).
  rewrite Ht0 in Ht. injection Ht as E _. subst rec0.
  destruct (extract_loop _ _ _ Ex) as (n & El).
  assert (Hk : keys_ok rec g).
  { eapply loop_keys; [| | exact El]; auto.
    split; [repeat constructor; intros []|]. intros k [<-|[]]; auto. }
  destruct Hk as [Hnd Hks]. split; [exact Hnd|]. split; [exact Hks|].
  assert (Hincl : incl (keys g) (START_SYMBOL :: map nonterminal (keys rec))).
  { intros k Hk. destruct (Hks k Hk) as [->|(u & Hu & ->)]; [left; reflexivity | right; apply in_map; exact Hu]. }
  pose proof (NoDup_incl_length Hnd Hincl) as Hl.
  unfold keys in Hl. cbn [length] in Hl. rewrite !length_map in Hl. exact Hl.
Qed.

Lemma X5_get_grammar_keys_witness :
  NoDup (keys c1_grammar) /\
  (forall k, In k (keys c1_grammar) -> k = START_SYMBOL \/
     exists u, In u (keys c1_rec) /\ k = nonterminal u) /\
  length c1_grammar <= S (length c1_rec).
Proof.
  apply (X5_get_grammar_keys xab_fn (lit "abc") init_state x_state x_state); vm_compute; reflexivity.
Defined.

(** X6: extraction stops at a fixpoint: for every variable of the trace
    record, either its nonterminal has a rule in the returned grammar, or
    its value occurs in no alternative of the returned grammar. *)
Theorem X6_get_grammar_fixpoint (function : callable) (input : str) (st st1 st' : gstate)
    (rec : dict str) (g : grammar) :
  get_grammar function input st = (inr g, st') ->
  trace_function function input st = (inr rec, st1) ->
  forall u x, In (u, x) rec ->
    In (nonterminal u) (keys g) \/
    forall k alts a, In (k, alts) g -> In a alts -> is_sub x a = false.
Proof.
  intros Hg Ht u x Hux. destruct (get_grammar_inr _ _ _ _ _ Hg) as (rec0 & Ht0 & Ex).
  rewrite Ht0 in Ht. injection Ht as E _. subst rec0.
  destruct (extract_loop _ _ _ Ex) as (n & El).
  destruct (loop_fix rec _ _ _ _ _ (fun u x H => or_introl H) El) as (vals' & Hf & Hn).
  destruct (Hf u x Hux) as [Hv|Hk]; [right | left; exact Hk].
  intros k alts a H1 H2. exact (Hn u x k alts a Hv H1 H2).
Qed.

Lemma X6_get_grammar_fixpoint_witness :
  In (nonterminal (lit "x")) (keys c1_grammar) \/
  forall k alts a, In (k, alts) c1_grammar -> In a alts -> is_sub (lit "ab") a = false.
Proof.
  apply (X6_get_grammar_fixpoint xab_fn (lit "abc") init_state x_state x_state c1_rec c1_grammar);
    [vm_compute; reflexivity | vm_compute; reflexivity | left; reflexivity].
Defined.

(** A callable with no local string variable. *)
Definition quiet_fn : callable := fun _ => mk_run [mk_event 1 [(lit "n", POther)]] (inr POther).

(** X7: when the trace record is empty, [get_grammar] returns the grammar
    whose only rule maps the start symbol to the input itself. *)
Theorem X7_empty_record_grammar (function : callable) (input : str) (st st1 : gstate) :
  trace_function function input st = (inr [], st1) ->
  get_grammar function input st = (inr [(START_SYMBOL, [input])], st1).
Proof. intros H. unfold get_grammar. rewrite H. reflexivity. Qed.

Lemma X7_empty_record_grammar_witness :
  get_grammar quiet_fn (lit "abc") init_state =
    (inr [(START_SYMBOL, [lit "abc"])], mk_gstate [] (Some (lit "abc")) false).
Proof. apply X7_empty_record_grammar. vm_compute; reflexivity. Defined.

(** X8: on the empty input, a callable that returns normally yields an
    empty trace record, and [get_grammar] returns the grammar mapping the
    start symbol to the empty string, whatever the callable's locals. *)
Theorem X8_empty_input_grammar (function : callable) (st : gstate) (o : pyval) :
  cr_result (function []) = inr o ->
  get_grammar function [] st = (inr [(START_SYMBOL, [[]])], mk_gstate [] (Some []) false).
Proof.
  intros Hres.
  assert (E : exists rec, trace_function function [] st = (inr rec, mk_gstate rec (Some []) false)).
  { unfold trace_function; cbv zeta; rewrite Hres; eexists; reflexivity. }
  destruct E as (rec & Ht). destruct rec as [|[u x] rec].
  - unfold get_grammar; rewrite Ht; reflexivity.
  - exfalso. destruct (trace_function_qual _ _ _ _ _ Ht u x (or_introl eq_refl)) as [Hl Hs].
    destruct x as [|c x]; [simpl in Hl; lia | simpl in Hs; discriminate Hs].
Qed.

Lemma X8_empty_input_grammar_witness :
  get_grammar xab_fn [] init_state = (inr [(START_SYMBOL, [[]])], mk_gstate [] (Some []) false).
Proof. apply (X8_empty_input_grammar xab_fn init_state POther). reflexivity. Defined.

(** X9: after [get_grammar] returns a grammar, the hook is uninstalled and
    the next extraction, of any callable on any input, behaves exactly as
    from the initial state: nothing of the earlier call carries over. *)
Theorem X9_normal_return_resets (function : callable) (input : str) (st st' : gstate) (g : grammar) :
  get_grammar function input st = (inr g, st') ->
  hook_on st' = false /\
  forall function2 input2, get_grammar function2 input2 st' = get_grammar function2 input2 init_state.
Proof.
  intros H. pose proof (get_grammar_inr_hook _ _ _ _ _ H) as Hh.
  split; [exact Hh|]. intros function2 input2. apply get_grammar_hook; exact Hh.
Qed.

Lemma X9_normal_return_resets_witness :
  hook_on x_state = false /\
  forall function2 input2, get_grammar function2 input2 x_state = get_grammar function2 input2 init_state.
Proof.
  apply (X9_normal_return_resets xab_fn (lit "abc") init_state x_state c1_grammar).
  vm_compute; reflexivity.
Defined.

(** X10: every value in the trace record returned by [trace_function] has
    length at least 2 and occurs in the input. *)
Theorem X10_record_values_qualify (function : callable) (input : str) (st st' : gstate) (rec : dict str) :
  trace_function function input st = (inr rec, st') ->
  forall u x, In (u, x) rec -> 2 <= length x /\ is_sub x input = true.
Proof. exact (trace_function_qual function input st st' rec). Qed.

Lemma X10_record_values_qualify_witness :
  2 <= length (lit "ab") /\ is_sub (lit "ab") (lit "abc") = true.
Proof.
  apply (X10_record_values_qualify xab_fn (lit "abc") init_state x_state c1_rec
           ltac:(vm_compute; reflexivity) (lit "x")).
  left; reflexivity.
Defined.

(** ** Merging the grammars of several inputs *)

Definition x_inputs : list str := [lit "abc"; lit "xab"; lit "abc"].

Definition x_merged : grammar :=
  [(START_SYMBOL, [lit "<x>c"; lit "x<x>"]); (lit "<x>", [lit "ab"])].

(** X11: when [get_merged_grammar] starts with no hook installed and
    returns a grammar, its keys are distinct, its first rule is the start
    rule, and the start rule lists the start alternatives of the inputs'
    own grammars without repetition, in the order of first occurrence. *)
Theorem X11_merged_start_rule (function : callable) (inputs : list str) (st st' : gstate) (m : grammar) :
  hook_on st = false ->
  get_merged_grammar function inputs st = (inr (Some m), st') ->
  NoDup (keys m) /\ (exists r m1, m = (START_SYMBOL, r) :: m1) /\
  dget START_SYMBOL m = Some (fold_left add_alt (map (start_alt function) inputs) []).
Proof.
  intros Hst E. destruct inputs as [|i inputs]; [discriminate E|].
  unfold get_merged_grammar in E; cbn [merged_loop] in E.
  destruct (get_grammar function i st) as [[e|g] st1] eqn:Eg; [discriminate E|].
  destruct (get_grammar_start _ _ _ _ _ Eg) as (Hg & a & g0 & Eg0).
  assert (Ha : start_alt function i = a).
  { unfold start_alt. rewrite <- (get_grammar_hook _ _ st Hst), Eg, Eg0. reflexivity. }
  cbn [map fold_left]. rewrite Ha. change (add_alt [] a) with [a].
  eapply merged_loop_start; [eapply get_grammar_inr_hook; exact Eg | exact Hg | exists g0; exact Eg0 | exact E].
Qed.

Lemma X11_merged_start_rule_witness :
  fold_left add_alt (map (start_alt xab_fn) x_inputs) [] = [lit "<x>c"; lit "x<x>"] /\
  NoDup (keys x_merged) /\ (exists r m1, x_merged = (START_SYMBOL, r) :: m1) /\
  dget START_SYMBOL x_merged = Some (fold_left add_alt (map (start_alt xab_fn) x_inputs) []).
Proof.
  split; [vm_compute; reflexivity|].
  apply (X11_merged_start_rule xab_fn x_inputs init_state x_state x_merged); vm_compute; reflexivity.
Defined.

(** A callable that raises on inputs containing "!". *)
Definition picky_fn : callable :=
  fun s => if is_sub (lit "!") s then mk_run [] (inl (Raised 0)) else xab_fn s.

(** X12: started with no hook installed, [get_merged_grammar] fails
    exactly when the extraction of one of the inputs, from a fresh state,
    fails. *)
Theorem X12_merged_fails_iff (function : callable) (inputs : list str) (st : gstate) :
  hook_on st = false ->
  (exists e, fst (get_merged_grammar function inputs st) = inl e) <->
  (exists input, In input inputs /\ exists e, fst (get_grammar function input init_state) = inl e).
Proof. intros H. exact (merged_loop_fail function inputs None st H). Qed.

Lemma X12_merged_fails_iff_witness :
  fst (get_merged_grammar picky_fn [lit "abc"; lit "a!"; lit "xab"] init_state) = inl (Raised 0) /\
  ((exists e, fst (get_merged_grammar picky_fn [lit "abc"; lit "a!"; lit "xab"] init_state) = inl e) <->
   (exists input, In input [lit "abc"; lit "a!"; lit "xab"] /\
      exists e, fst (get_grammar picky_fn input init_state) = inl e)).
Proof.
  split; [vm_compute; reflexivity|].
  apply X12_merged_fails_iff. reflexivity.
Defined.
